(** * Threshold bars of [finance_ml/data_structures/standard_bars.py]

    A shallow embedding of the bar sampler: tick, volume and dollar bars
    obtained by grouping the rows of a tick table each time a cumulative
    measure reaches a threshold.

    Conventions of the embedding.
    - numpy's [float64] cells are exact rationals ([Q]); rounding error is
      not modelled.  [NaN] is the [None] of an [option].
    - A pandas [DataFrame] is a mutable object: frames live in a heap and
      the functions receive references, as in Python.
    - The input table has the three columns [date_time], [price], [volume]
      under their default names, which [_get_tick_bar] and its siblings
      hard-code; the column-name arguments of [sample_bar] are therefore
      not parameters here and its three column assertions always pass.
      The ['group'] column that [_assign_groups_threshold] adds to its
      working copy is the last column of that copy, the one its
      [iloc[..., -1]] writes to.
    - A time stamp is a rational count of business days since an epoch: its
      integer part is the business day on which pandas' [resample('B')]
      bins the row. *)

From Stdlib Require Import QArith Qround Qminmax Qabs Lqa Lia ZArith.
From stdpp Require Import base list strings sorting.

Open Scope Q_scope.

(** ** Columns and the threshold loop *)

(** [x >= th] on floats; any comparison with [NaN] is [False]. *)
Definition ge_th (x : Q) (th : option Q) : bool :=
  match th with
  | Some t => Qle_bool t x
  | None => false
  end.

(** [col.iloc[a:b] = x] *)
Definition slice_assign {A} (a b : nat) (x : A) (col : list A) : list A :=
  imap (fun i y => if (a <=? i)%nat && (i <? b)%nat then x else y) col.

(** The local variables of the loop of [_assign_groups_threshold]. *)
Record locals := Locals { ref : Q; group : Z; ref_row : nat }.

(** The two columns of [tmp] the loop works on, [tmp[cum_col]] and
    [tmp['group']] (the last column), with the local variables. *)
Definition loop_state : Type := list Q * list (option Z) * locals.

(** One iteration of [for row in range(df.shape[0])], lines 209-215. *)
Definition loop_body (th : option Q) (st : loop_state) (row : nat) : loop_state :=
  let '(cum, grp, lv) := st in
  match cum !! row with
  | Some v =>
      if ge_th v th then
        (map (fun x => x - v) cum,
         slice_assign (ref_row lv) (row + 1) (Some (group lv)) grp,
         Locals v (group lv + 1) (row + 1))
      else st
  | None => st
  end.

(** Lines 205-215: [ref = 0; group = 0; ref_row = 0] and the loop. *)
Definition threshold_loop (th : option Q) (n : nat) (cum : list Q)
    (grp : list (option Z)) : loop_state :=
  fold_left (loop_body th) (seq 0 n) (cum, grp, Locals 0 0 0%nat).

(** The group labels computed from a cumulative column: the ['group']
    column starts as [NaN] everywhere (line 202) and is returned after the
    loop (line 216). *)
Definition assign_groups (th : option Q) (cum : list Q) : list (option Z) :=
  let n := length cum in
  (threshold_loop th n cum (replicate n None)).1.2.


(** ** Frames, the heap and the effects of the program *)

(** One row of the input table. *)
Record Tick := { date_time : Q; price : Q; volume : Q }.

(** A [DataFrame]: the input rows and the columns the program adds to its
    working copies.  A column that has not been assigned is absent. *)
Record DataFrame := {
  rows : list Tick;
  ticks : option (list Q);
  dollar : option (list Q);
  cum_ticks : option (list Q);
  cum_vol : option (list Q);
  cum_dol : option (list Q);
  group_col : option (list (option Z))
}.

(** A table as a caller supplies it. *)
Definition frame_of (ts : list Tick) : DataFrame :=
  {| rows := ts; ticks := None; dollar := None; cum_ticks := None;
     cum_vol := None; cum_dol := None; group_col := None |}.

(** [df.shape[0]] *)
Definition nrows (df : DataFrame) : nat := length (rows df).

(** [df[name]] for a float column *)
Definition get_col (name : string) (df : DataFrame) : option (list Q) :=
  if String.eqb name "date_time" then Some (date_time <$> rows df)
  else if String.eqb name "price" then Some (price <$> rows df)
  else if String.eqb name "volume" then Some (volume <$> rows df)
  else if String.eqb name "ticks" then ticks df
  else if String.eqb name "dollar" then dollar df
  else if String.eqb name "cum_ticks" then cum_ticks df
  else if String.eqb name "cum_vol" then cum_vol df
  else if String.eqb name "cum_dol" then cum_dol df
  else None.

(** [df[name] = col] for the columns the program assigns; the program
    assigns no other float column. *)
Definition set_col (name : string) (col : list Q) (df : DataFrame) : DataFrame :=
  if String.eqb name "ticks" then
    {| rows := rows df; ticks := Some col; dollar := dollar df;
       cum_ticks := cum_ticks df; cum_vol := cum_vol df; cum_dol := cum_dol df;
       group_col := group_col df |}
  else if String.eqb name "dollar" then
    {| rows := rows df; ticks := ticks df; dollar := Some col;
       cum_ticks := cum_ticks df; cum_vol := cum_vol df; cum_dol := cum_dol df;
       group_col := group_col df |}
  else if String.eqb name "cum_ticks" then
    {| rows := rows df; ticks := ticks df; dollar := dollar df;
       cum_ticks := Some col; cum_vol := cum_vol df; cum_dol := cum_dol df;
       group_col := group_col df |}
  else if String.eqb name "cum_vol" then
    {| rows := rows df; ticks := ticks df; dollar := dollar df;
       cum_ticks := cum_ticks df; cum_vol := Some col; cum_dol := cum_dol df;
       group_col := group_col df |}
  else if String.eqb name "cum_dol" then
    {| rows := rows df; ticks := ticks df; dollar := dollar df;
       cum_ticks := cum_ticks df; cum_vol := cum_vol df; cum_dol := Some col;
       group_col := group_col df |}
  else df.

(** [df['group'] = col] *)
Definition set_group (col : list (option Z)) (df : DataFrame) : DataFrame :=
  {| rows := rows df; ticks := ticks df; dollar := dollar df;
     cum_ticks := cum_ticks df; cum_vol := cum_vol df; cum_dol := cum_dol df;
     group_col := Some col |}.

Inductive error :=
  | AssertionError
  | KeyError (name : string)
  | DanglingReference.

(** What a call can observe and change: the frames in memory and what has
    been printed. *)
Record World := { heap : list DataFrame; stdout : list (option Q) }.

(** A reference to a frame: its index in the heap. *)
Definition loc := nat.

(** A computation reads and changes the world and returns a value or
    raises an exception. *)
Definition M (A : Type) : Type := World -> (error + A) * World.

#[global] Instance M_ret : MRet M := fun A x w => (inr x, w).
#[global] Instance M_bind : MBind M := fun A B k m w =>
  match m w with
  | (inr x, w') => k x w'
  | (inl e, w') => (inl e, w')
  end.

Definition raise {A} (e : error) : M A := fun w => (inl e, w).

Definition load (l : loc) : M DataFrame := fun w =>
  match heap w !! l with
  | Some df => (inr df, w)
  | None => (inl DanglingReference, w)
  end.

Definition store (l : loc) (df : DataFrame) : M unit := fun w =>
  (inr tt, {| heap := <[l := df]> (heap w); stdout := stdout w |}).

Definition alloc (df : DataFrame) : M loc := fun w =>
  (inr (length (heap w)), {| heap := heap w ++ [df]; stdout := stdout w |}).

(** [df.copy(deep=True)]: a new object with the same contents. *)
Definition copy (l : loc) : M loc := df ← load l; alloc df.

(** [print('Auto threshold set to {:,}'.format(th))] *)
Definition print (x : option Q) : M unit := fun w =>
  (inr tt, {| heap := heap w; stdout := stdout w ++ [x] |}).

(** [df[name]] on the frame behind a reference *)
Definition column (l : loc) (name : string) : M (list Q) :=
  df ← load l;
  match get_col name df with
  | Some c => mret c
  | None => raise (KeyError name)
  end.

(** [df[name] = col] on the frame behind a reference *)
Definition assign_column (l : loc) (name : string) (col : list Q) : M unit :=
  df ← load l; store l (set_col name col df).

(** A [for] loop whose body updates local variables [s]. *)
Fixpoint for_each {A S} (xs : list A) (body : S -> A -> M S) (s : S) : M S :=
  match xs with
  | [] => mret s
  | x :: xs' => s' ← body s x; for_each xs' body s'
  end.

(** ** Numeric helpers *)

(** [np.sum] *)
Definition sum (l : list Q) : Q := fold_left Qplus l 0.

Fixpoint cumsum_from (acc : Q) (l : list Q) : list Q :=
  match l with
  | [] => []
  | x :: l' => (acc + x) :: cumsum_from (acc + x) l'
  end.

(** [Series.cumsum()] *)
Definition cumsum (l : list Q) : list Q := cumsum_from 0 l.

(** [Series.mean()]: [NaN] on an empty series. *)
Definition mean (l : list Q) : option Q :=
  match l with
  | [] => None
  | _ => Some (sum l / inject_Z (Z.of_nat (length l)))
  end.

(** [np.rint]: round to the nearest integer, ties to the even one. *)
Definition rint (x : Q) : Z :=
  let f := Qfloor x in
  match Qcompare (x - inject_Z f) (1 # 2) with
  | Lt => f
  | Gt => (f + 1)%Z
  | Eq => if Z.even f then f else (f + 1)%Z
  end.

Definition pow10 (d : Z) : Q := inject_Z (10 ^ d).

(** [np.round(x, decimals)]: scale by the power of ten, [rint], scale back;
    for negative [decimals] the scaling divides first. *)
Definition np_round (x : Q) (decimals : Z) : Q :=
  if (0 <=? decimals)%Z
  then inject_Z (rint (x * pow10 decimals)) / pow10 decimals
  else inject_Z (rint (x / pow10 (- decimals))) * pow10 (- decimals).

(** ** The automatic threshold *)

(** The cells of [col] on the rows whose key is [k]. *)
Fixpoint rows_where {K A} `{EqDecision K} (k : K) (keys : list K) (col : list A) : list A :=
  match keys, col with
  | k' :: keys', x :: col' =>
      if decide (k' = k) then x :: rows_where k keys' col'
      else rows_where k keys' col'
  | _, _ => []
  end.

(** [df.set_index('date_time').resample('B').sum()[tgt_col]]: one bin for
    every business day from the first to the last day of the table, each
    holding the sum of the rows of that day; a day without rows sums to 0. *)
Definition resample_B_sum (dates vals : list Q) : list Q :=
  let days := Qfloor <$> dates in
  match days with
  | [] => []
  | d :: ds =>
      let first := foldr Z.min d ds in
      let last := foldr Z.max d ds in
      (fun b => sum (rows_where b days vals)) <$> seqZ first (last - first + 1)
  end.

(** [mean_no_ticks * auto_ratio], the value before rounding. *)
Definition pre_rounding_threshold (dates vals : list Q) (auto_ratio : Q) : option Q :=
  (fun m => m * auto_ratio) <$> mean (resample_B_sum dates vals).

(** Lines 171-173. *)
Definition _get_auto_threshold (df : loc) (tgt_col : string)
    (rounding : Z) (auto_ratio : Q) : M (option Q) :=
  dates ← column df "date_time";
  vals ← column df tgt_col;
  mret ((fun x => np_round x rounding) <$> pre_rounding_threshold dates vals auto_ratio).

(** ** The group assigner *)

(** The [threshold] argument: the string ['auto'] or a number. *)
Inductive threshold := Auto | Fixed (th : Q).

(** [df['group'].values] *)
Definition group_column (l : loc) : M (list (option Z)) :=
  df ← load l;
  match group_col df with
  | Some g => mret g
  | None => raise (KeyError "group")
  end.

(** One pass through the body of the loop on the frame [tmp]: the cells
    of [tmp[cum_col]] and of the last column, ['group'], are read, changed by
    [loop_body] and written back. *)
Definition loop_iteration (th : option Q) (tmp : loc) (cum_col : string)
    (lv : locals) (row : nat) : M locals :=
  t ← load tmp;
  cum ← column tmp cum_col;
  grp ← group_column tmp;
  let '(cum', grp', lv') := loop_body th (cum, grp, lv) row in
  _ ← store tmp (set_group grp' (set_col cum_col cum' t));
  mret lv'.

(** Lines 192-216. *)
Definition _assign_groups_threshold (df : loc) (threshold : threshold)
    (tgt_col cum_col : string) (rounding : Z) (auto_ratio : Q)
    : M (list (option Z)) :=
  tmp ← copy df;
  th ← match threshold with
       | Auto =>
           th ← _get_auto_threshold df tgt_col rounding auto_ratio;
           _ ← print th;
           mret th
       | Fixed th => mret (Some th)
       end;
  t ← load tmp;
  _ ← store tmp (set_group (replicate (nrows t) None) t);
  d ← load df;
  _ ← for_each (seq 0 (nrows d)) (loop_iteration th tmp cum_col)
        (Locals 0 0 0%nat);
  group_column tmp.

(** ** Aggregation of the groups into bars *)

Record Bar := {
  bar_date_time : Q;
  open : Q;
  high : Q;
  low : Q;
  close : Q;
  bar_ticks : Q;
  bar_volume : Q;
  bar_dollar : Q
}.

Fixpoint insert_key (k : Z) (ks : list Z) : list Z :=
  match ks with
  | [] => [k]
  | k' :: ks' =>
      if (k <? k')%Z then k :: ks
      else if (k =? k')%Z then ks
      else k' :: insert_key k ks'
  end.

(** The keys of [df.groupby(groups)]: the distinct labels in ascending
    order; rows labelled [NaN] belong to no group (pandas drops them). *)
Definition group_keys (groups : list (option Z)) : list Z :=
  foldr insert_key [] (omap id groups).

(** The aggregations ['first'], ['last'], [np.max] and [np.min] of the cells
    of a group; a group has at least one row. *)
Definition agg_first (l : list Q) : Q := default 0 (head l).
Definition agg_last (l : list Q) : Q := default 0 (last l).
Definition agg_max (l : list Q) : Q :=
  match l with [] => 0 | x :: l' => fold_left Qmax l' x end.
Definition agg_min (l : list Q) : Q :=
  match l with [] => 0 | x :: l' => fold_left Qmin l' x end.

(** The aggregations of one group: [date_time] last; [price] first, max,
    min, last; [ticks], [volume] and [dollar] summed; lines 76-80. *)
Definition make_bar (dt p t v d : list Q) : Bar :=
  {| bar_date_time := agg_last dt;
     open := agg_first p;
     high := agg_max p;
     low := agg_min p;
     close := agg_last p;
     bar_ticks := sum t;
     bar_volume := sum v;
     bar_dollar := sum d |}.

(** [df.groupby(groups, as_index=False).agg(...)] with the renaming of the
    columns, lines 75-85 (and 109-119, 143-153), on the columns it reads. *)
Definition aggregate (dt p t v d : list Q) (groups : list (option Z)) : list Bar :=
  (fun k =>
     let sel := fun col : list Q => rows_where (Some k) groups col in
     make_bar (sel dt) (sel p) (sel t) (sel v) (sel d)) <$> group_keys groups.

(** The aggregation on the frame behind a reference; the columns are read
    under the names the source hard-codes. *)
Definition groupby_agg (df : loc) (groups : list (option Z)) : M (list Bar) :=
  dt ← column df "date_time";
  p ← column df "price";
  t ← column df "ticks";
  v ← column df "volume";
  d ← column df "dollar";
  mret (aggregate dt p t v d groups).

(** ** The samplers *)

(** Lines 67-86.  The frame [df] is changed in place: it gets the column
    [cum_ticks]. *)
Definition _get_tick_bar (df : loc) (threshold : threshold)
    (rounding : Z) (auto_ratio : Q) : M (list Bar) :=
  t ← column df "ticks";
  _ ← assign_column df "cum_ticks" (cumsum t);
  groups ← _assign_groups_threshold df threshold "ticks" "cum_ticks"
             rounding auto_ratio;
  groupby_agg df groups.

(** Lines 101-120. *)
Definition _get_volume_bar (df : loc) (threshold : threshold)
    (rounding : Z) (auto_ratio : Q) : M (list Bar) :=
  v ← column df "volume";
  _ ← assign_column df "cum_vol" (cumsum v);
  groups ← _assign_groups_threshold df threshold "volume" "cum_vol"
             rounding auto_ratio;
  groupby_agg df groups.

(** Lines 135-154. *)
Definition _get_dollar_bar (df : loc) (threshold : threshold)
    (rounding : Z) (auto_ratio : Q) : M (list Bar) :=
  d ← column df "dollar";
  _ ← assign_column df "cum_dol" (cumsum d);
  groups ← _assign_groups_threshold df threshold "dollar" "cum_dol"
             rounding auto_ratio;
  groupby_agg df groups.

Definition POSSIBLE_BAR_TYPES : list string := ["tick"; "volume"; "dollar"].

(** Lines 36-51: the check of the bar type, the working copy [aux] with its
    columns [ticks] and [dollar], and the dispatch on the bar type. *)
Definition sample_bar (df : loc) (bar_type : string) (threshold : threshold)
    (rounding : Z) (auto_ratio : Q) : M (list Bar) :=
  if negb (existsb (String.eqb bar_type) POSSIBLE_BAR_TYPES)
  then raise AssertionError
  else
    aux ← copy df;
    a ← load aux;
    _ ← assign_column aux "ticks" (replicate (nrows a) 1);
    p ← column aux "price";
    v ← column aux "volume";
    _ ← assign_column aux "dollar" (zip_with Qmult p v);
    if String.eqb bar_type "tick" then
      _get_tick_bar aux threshold rounding auto_ratio
    else if String.eqb bar_type "volume" then
      _get_volume_bar aux threshold rounding auto_ratio
    else
      _get_dollar_bar aux threshold rounding auto_ratio.

(** A call of [sample_bar] on a table held by the caller. *)
Definition run_sample_bar (ts : list Tick) (bar_type : string)
    (threshold : threshold) (rounding : Z) (auto_ratio : Q)
    : (error + list Bar) * World :=
  sample_bar 0%nat bar_type threshold rounding auto_ratio
    {| heap := [frame_of ts]; stdout := [] |}.

(** ** The single pass of section 4.2 of the specification

    The group assigner as the specification words it, to compare with
    the loop of the source. *)

Inductive spec_error := InvalidThreshold | EmptyInput.

Record spec_state := SpecState {
  group_id : Z;
  group_start_index : nat;
  baseline : Q;
  assignment : list (option Z)
}.

Definition spec_step (threshold : Q) (cumulative_measure : list Q)
    (st : spec_state) (i : nat) : spec_state :=
  match cumulative_measure !! i with
  | Some c =>
      let local_cumsum := c - baseline st in
      if Qle_bool threshold local_cumsum then
        {| group_id := group_id st + 1;
           group_start_index := i + 1;
           baseline := c;
           assignment := slice_assign (group_start_index st) (i + 1)
                           (Some (group_id st)) (assignment st) |}
      else st
  | None => st
  end.

Definition spec_pass (threshold : Q) (cumulative_measure : list Q) : spec_state :=
  let n := length cumulative_measure in
  fold_left (spec_step threshold cumulative_measure) (seq 0 n)
    (SpecState 0 0%nat 0 (replicate n None)).

Definition spec_assign_groups (cumulative_measure : list Q) (threshold : Q)
    : spec_error + list (option Z) :=
  if Qle_bool threshold 0 then inl InvalidThreshold
  else match cumulative_measure with
       | [] => inl EmptyInput
       | _ =>
           let st := spec_pass threshold cumulative_measure in
           inr (slice_assign (group_start_index st) (length cumulative_measure)
                  (Some (group_id st)) (assignment st))
       end.

(** The automatic threshold as the specification words it: the daily
    totals are averaged over the days present in the input. *)
Definition spec_auto_threshold (dates vals : list Q) (rounding : Z) (ratio : Q)
    : option Q :=
  let days := Qfloor <$> dates in
  let totals := (fun b => sum (rows_where b days vals)) <$> remove_dups days in
  (fun m => np_round (m * ratio) rounding) <$> mean totals.

Definition ticks5 (t0 t1 t2 t3 t4 : Q) : list Tick :=
  [ {| date_time := t0; price := 10; volume := 1 |};
    {| date_time := t1; price := 11; volume := 1 |};
    {| date_time := t2; price := 9; volume := 1 |};
    {| date_time := t3; price := 12; volume := 1 |};
    {| date_time := t4; price := 10; volume := 1 |} ].

(** ** Notions used to state the properties of the loop *)

(** The measure a bar type accumulates, one value per row. *)
Definition measure_column (bar_type : string) (ts : list Tick) : list Q :=
  if String.eqb bar_type "tick" then replicate (length ts) 1
  else if String.eqb bar_type "volume" then volume <$> ts
  else zip_with Qmult (price <$> ts) (volume <$> ts).

(** The threshold the loop compares with. *)
Definition resolved_threshold (threshold : threshold) (bar_type : string)
    (ts : list Tick) (rounding : Z) (auto_ratio : Q) : option Q :=
  match threshold with
  | Fixed th => Some th
  | Auto =>
      (fun x => np_round x rounding)
        <$> pre_rounding_threshold (date_time <$> ts)
              (measure_column bar_type ts) auto_ratio
  end.

(** The bars of a table once its rows are labelled. *)
Definition bars_of (ts : list Tick) (groups : list (option Z)) : list Bar :=
  aggregate (date_time <$> ts) (price <$> ts) (replicate (length ts) 1)
    (volume <$> ts) (zip_with Qmult (price <$> ts) (volume <$> ts)) groups.

(** Whether each row closes a bar, reading the column left to right with
    the baseline [base] of the bar in progress. *)
Fixpoint closes (th : option Q) (base : Q) (cum : list Q) : list bool :=
  match cum with
  | [] => []
  | c :: rest =>
      if ge_th (c - base) th then true :: closes th c rest
      else false :: closes th base rest
  end.

(** The labels that follow from the closing rows: a row gets the number of
    the bar that a closing row at or after it completes, and no label when
    no closing row follows. *)
Fixpoint labels (g : Z) (flags : list bool) : list (option Z) :=
  match flags with
  | [] => []
  | f :: fs =>
      (if existsb id (f :: fs) then Some g else None)
        :: labels (if f then (g + 1)%Z else g) fs
  end.

(** A column cut into bars: each bar is a run of rows below the threshold
    closed by a row that reaches it, numbered from [g]; the rows that
    remain stay below the threshold and carry no label. *)
Inductive Blocks (th : option Q) : Q -> Z -> list Q -> list (option Z) -> Prop :=
  | Blocks_tail b g tail :
      Forall (fun c => ge_th (c - b) th = false) tail ->
      Blocks th b g tail (replicate (length tail) None)
  | Blocks_bar b g pre c rest gs :
      Forall (fun x => ge_th (x - b) th = false) pre ->
      ge_th (c - b) th = true ->
      Blocks th c (g + 1) rest gs ->
      Blocks th b g (pre ++ c :: rest)
        (replicate (length pre + 1) (Some g) ++ gs).

(** The baseline in force at row [s]: the cumulative measure of the row
    before it, [b] at the first row. *)
Definition baseline_at (b : Q) (cum : list Q) (s : nat) : Q :=
  match s with
  | O => b
  | S s' => default 0 (cum !! s')
  end.

(** The cumulative measure just before row [s]. *)
Definition cum_before (cum : list Q) (s : nat) : Q := baseline_at 0 cum s.

(** The cumulative measure at row [i], rebased at the row [s] where the
    bar starts. *)
Definition rebased (cum : list Q) (s i : nat) : Q :=
  default 0 (cum !! i) - cum_before cum s.

(** Rows [s..e] are the rows labelled [g]. *)
Definition group_rows (gs : list (option Z)) (g : Z) (s e : nat) : Prop :=
  (s <= e)%nat
  /\ (forall i, (s <= i <= e)%nat -> gs !! i = Some (Some g))
  /\ (forall i, gs !! i = Some (Some g) -> (s <= i <= e)%nat).

(** The partition property of a group assignment over [n] rows: every row
    has an integer label, the labels start at 0, never decrease and leave
    no gap. *)
Definition partition_property (gs : list (option Z)) (n : nat) : Prop :=
  length gs = n
  /\ (forall i, (i < n)%nat -> exists g, gs !! i = Some (Some g))
  /\ (forall i j g h, (i <= j)%nat ->
        gs !! i = Some (Some g) -> gs !! j = Some (Some h) -> (g <= h)%Z)
  /\ (forall g, gs !! 0%nat = Some (Some g) -> g = 0%Z)
  /\ (forall i g h, gs !! i = Some (Some g) -> gs !! S i = Some (Some h) ->
        h = g \/ h = (g + 1)%Z).

(** The same property on the labelled rows only, which are the first [k]
    rows; the others carry [NaN]. *)
Definition prefix_partition_property (gs : list (option Z)) (n : nat) : Prop :=
  length gs = n
  /\ (exists k, (k <= n)%nat
        /\ (forall i, (i < k)%nat -> exists g, gs !! i = Some (Some g))
        /\ (forall i, (k <= i < n)%nat -> gs !! i = Some None))
  /\ (forall i j g h, (i <= j)%nat ->
        gs !! i = Some (Some g) -> gs !! j = Some (Some h) -> (g <= h)%Z)
  /\ (forall g, gs !! 0%nat = Some (Some g) -> g = 0%Z)
  /\ (forall i g h, gs !! i = Some (Some g) -> gs !! S i = Some (Some h) ->
        h = g \/ h = (g + 1)%Z).

(** No row is dropped: every row has a group and the tick counts of the
    bars add up to the number of rows. *)
Definition trailing_rows_kept (ts : list Tick) (bar_type : string) (th : Q)
    (rounding : Z) (auto_ratio : Q) : Prop :=
  (forall i, (i < length ts)%nat ->
     exists g, assign_groups (Some th) (cumsum (measure_column bar_type ts)) !! i
               = Some (Some g))
  /\ exists bars,
       (run_sample_bar ts bar_type (Fixed th) rounding auto_ratio).1 = inr bars
       /\ sum (bar_ticks <$> bars) == inject_Z (Z.of_nat (length ts)).

(** The rows after the last crossing are left out: the labelled rows are
    the first [k] rows, the rows after them carry [NaN] and stay below the
    threshold, and the bars hold the first [k] rows only, one bar for each
    label. *)
Definition trailing_rows_dropped (ts : list Tick) (bar_type : string) (th : Q)
    (rounding : Z) (auto_ratio : Q) : Prop :=
  let cum := cumsum (measure_column bar_type ts) in
  let gs := assign_groups (Some th) cum in
  exists bars k,
    (run_sample_bar ts bar_type (Fixed th) rounding auto_ratio).1 = inr bars
    /\ (k <= length ts)%nat
    /\ (forall i, (i < k)%nat ->
          exists g, gs !! i = Some (Some g)
                    /\ (0 <= g < Z.of_nat (length bars))%Z)
    /\ (forall i, (k <= i < length ts)%nat ->
          gs !! i = Some None /\ rebased cum k i < th)
    /\ sum (bar_ticks <$> bars) == inject_Z (Z.of_nat k)
    /\ (k = 0%nat /\ bars = []
        \/ (0 < k)%nat
           /\ gs !! (k - 1)%nat = Some (Some (Z.of_nat (length bars) - 1)%Z)).

(** The single pass of the specification agrees with the loop of the source
    on every row the source labels, and gives the rows the source leaves
    at [NaN] the next group id [G]. *)
Definition agree_up_to_last_crossing (cum : list Q) (th : Q) : Prop :=
  let src := assign_groups (Some th) cum in
  exists gs_spec G,
    spec_assign_groups cum th = inr gs_spec
    /\ length gs_spec = length src
    /\ (forall i g, src !! i = Some (Some g) ->
          gs_spec !! i = Some (Some g) /\ (g < G)%Z)
    /\ (forall i, src !! i = Some None -> gs_spec !! i = Some (Some G)).

(** The number of business days from the first to the last day of the
    table, both included. *)
Definition business_days_spanned (dates : list Q) : Z :=
  match Qfloor <$> dates with
  | [] => 0
  | d :: ds => foldr Z.max d ds - foldr Z.min d ds + 1
  end.

(** In automatic mode the threshold is the total of the measure divided by
    the number of business days the table spans, times the ratio, rounded;
    it is printed once and the bars are those of a fixed threshold of that
    value; with [rounding = -2] it is the nearest hundred. *)
Definition auto_threshold_resolved_once (ts : list Tick) (bar_type : string)
    (rounding : Z) (auto_ratio : Q) : Prop :=
  let pre := sum (measure_column bar_type ts)
             / inject_Z (business_days_spanned (date_time <$> ts))
             * auto_ratio in
  let t := np_round pre rounding in
  stdout (run_sample_bar ts bar_type Auto rounding auto_ratio).2 = [Some t]
  /\ (run_sample_bar ts bar_type Auto rounding auto_ratio).1
     = (run_sample_bar ts bar_type (Fixed t) rounding auto_ratio).1
  /\ (rounding = (-2)%Z ->
      exists k : Z, t = inject_Z k * 100 /\ Qabs (t - pre) <= 50).

(** One day of trading with a total volume of 1000, in a frame. *)
Definition one_day_world : World :=
  {| heap := [frame_of [ {| date_time := 0; price := 1; volume := 1000 |} ]];
     stdout := [] |}.

(** Two days of trading with a business day without trades between them. *)
Definition ticks_with_gap : list Tick :=
  [ {| date_time := 0; price := 1; volume := 15000 |};
    {| date_time := 2; price := 1; volume := 15000 |} ].

(** The open, high, low, close, tick count and volume of a bar. *)
Definition ohlc (b : Bar) : Q * Q * Q * Q * Q * Q :=
  (open b, high b, low b, close b, bar_ticks b, bar_volume b).

(** ** Notions used to state further properties of the samplers *)

(** The lengths of the runs of rows that the closing rows end, [p] rows
    being pending in front of [flags]. *)
Fixpoint run_lengths (p : nat) (flags : list bool) : list nat :=
  match flags with
  | [] => []
  | true :: fs => S p :: run_lengths 0 fs
  | false :: fs => run_lengths (S p) fs
  end.

(** A list cut into consecutive pieces of the given lengths. *)
Fixpoint chunks {A} (sizes : list nat) (l : list A) : list (list A) :=
  match sizes with
  | [] => []
  | s :: ss => take s l :: chunks ss (drop s l)
  end.

(** The labels of consecutive runs of the given lengths, numbered from [g]. *)
Fixpoint run_labels (g : Z) (sizes : list nat) : list (option Z) :=
  match sizes with
  | [] => []
  | s :: ss => replicate s (Some g) ++ run_labels (g + 1) ss
  end.

(** The bars of consecutive runs of the given lengths in five columns. *)
Fixpoint bars_of_runs (sizes : list nat) (dt p t v d : list Q) : list Bar :=
  match sizes with
  | [] => []
  | s :: ss =>
      make_bar (take s dt) (take s p) (take s t) (take s v) (take s d)
      :: bars_of_runs ss (drop s dt) (drop s p) (drop s t) (drop s v) (drop s d)
  end.

(** What one row adds to the measure of a bar type. *)
Definition row_measure (bar_type : string) (t : Tick) : Q :=
  if String.eqb bar_type "tick" then 1
  else if String.eqb bar_type "volume" then volume t
  else price t * volume t.

(** The measure of a run of rows. *)
Definition measure (bar_type : string) (seg : list Tick) : Q :=
  sum (row_measure bar_type <$> seg).

(** The bar of a run of rows, with the columns [ticks] and [dollar] that
    [sample_bar] derives. *)
Definition bar_of_rows (seg : list Tick) : Bar :=
  make_bar (date_time <$> seg) (price <$> seg) (replicate (length seg) 1)
    (volume <$> seg) (zip_with Qmult (price <$> seg) (volume <$> seg)).

(** The lengths of the runs of rows that the sampler turns into bars. *)
Definition bar_sizes (bar_type : string) (th : option Q) (ts : list Tick)
    : list nat :=
  run_lengths 0 (closes th 0 (cumsum (measure_column bar_type ts))).

(** The runs of rows that the sampler turns into bars. *)
Definition segments (bar_type : string) (th : option Q) (ts : list Tick)
    : list (list Tick) :=
  chunks (bar_sizes bar_type th ts) ts.

(** A run of values that reaches the threshold with its last value and
    not before. *)
Definition closes_at_end (th : option Q) (vals : list Q) : Prop :=
  ge_th (sum vals) th = true
  /\ forall k, (0 < k < length vals)%nat -> ge_th (sum (take k vals)) th = false.

(** A run of values that never reaches the threshold. *)
Definition stays_below (th : option Q) (vals : list Q) : Prop :=
  forall k, (0 < k <= length vals)%nat -> ge_th (sum (take k vals)) th = false.

(** The measure of a bar for a bar type. *)
Definition bar_measure (bar_type : string) (b : Bar) : Q :=
  if String.eqb bar_type "tick" then bar_ticks b
  else if String.eqb bar_type "volume" then bar_volume b
  else bar_dollar b.

(** A run of a sampler on the frame at [l] that returns bars, leaves the
    frame [d'] at [l] and leaves the other frames of [w] as they were. *)
Definition returns_leaving (run : (error + list Bar) * World) (w : World)
    (l : loc) (d' : DataFrame) : Prop :=
  (exists bars, run.1 = inr bars)
  /\ heap run.2 !! l = Some d'
  /\ (forall l' x, l' <> l -> heap w !! l' = Some x -> heap run.2 !! l' = Some x).

(** A row with its volume in another unit, [c] units for one. *)
Definition scale_volume (c : Q) (t : Tick) : Tick :=
  {| date_time := date_time t; price := price t; volume := c * volume t |}.

(** A frame as [sample_bar] prepares it, with the columns [ticks] and
    [dollar], alone in memory. *)
Definition prepared_frame : DataFrame :=
  set_col "dollar" [1000]
    (set_col "ticks" [1]
       (frame_of [ {| date_time := 0; price := 1; volume := 1000 |} ])).

Definition prepared_world : World := {| heap := [prepared_frame]; stdout := [] |}.

(** * Properties *)

Lemma ge_th_true t x : ge_th x (Some t) = true <-> t <= x.
Proof. apply Qle_bool_iff. Qed.

Lemma ge_th_false t x : ge_th x (Some t) = false <-> x < t.
Proof.
  simpl. rewrite <- not_true_iff_false, Qle_bool_iff. split.
  - apply Qnot_le_lt.
  - apply Qlt_not_le.
Qed.

Section loop.
Context (th : option Q).

Lemma ge_th_proper x y : x == y -> ge_th x th = ge_th y th.
Proof.
  intros E. destruct th as [t|]; simpl; [|done].
  apply eq_true_iff_eq. rewrite !Qle_bool_iff, E. tauto.
Qed.

Lemma closes_shift v l b b' :
  b' == b + v -> closes th b (map (fun x => x - v) l) = closes th b' l.
Proof.
  revert b b'. induction l as [|c l IH]; intros b b' E; simpl; [done|].
  rewrite (ge_th_proper (c - v - b) (c - b')) by (rewrite E; ring).
  destruct (ge_th (c - b') th).
  - f_equal. apply IH. ring.
  - f_equal. by apply IH.
Qed.

Lemma labels_pending g m :
  labels g (replicate m false) = replicate m None.
Proof.
  induction m as [|m IH]; simpl; [done|].
  rewrite IH. f_equal.
  assert (existsb id (replicate m false) = false) as ->; [|done].
  clear. induction m; simpl; auto.
Qed.

Lemma labels_close g m fs :
  labels g (replicate m false ++ true :: fs)
  = replicate (m + 1) (Some g) ++ labels (g + 1) fs.
Proof.
  induction m as [|m IH]; simpl; [done|].
  rewrite IH. f_equal.
  assert (existsb id (replicate m false ++ true :: fs) = true) as ->; [|done].
  rewrite existsb_app. simpl. apply orb_true_r.
Qed.

Lemma slice_assign_length {A} a b (x : A) l :
  length (slice_assign a b x l) = length l.
Proof. unfold slice_assign. by rewrite length_imap. Qed.

Lemma slice_assign_lookup {A} a b (x : A) l i :
  slice_assign a b x l !! i
  = (fun y => if (a <=? i)%nat && (i <? b)%nat then x else y) <$> l !! i.
Proof. unfold slice_assign. by rewrite list_lookup_imap. Qed.

Lemma slice_assign_take {A} a b (x : A) l :
  (a <= b)%nat -> (b <= length l)%nat ->
  take b (slice_assign a b x l) = take a l ++ replicate (b - a) x.
Proof.
  intros Hab Hb. apply list_eq. intros i.
  destruct (decide (i < b)%nat) as [Hi|Hi].
  - rewrite lookup_take_lt by done. rewrite slice_assign_lookup.
    destruct (lookup_lt_is_Some_2 l i) as [y Hy]; [lia|]. rewrite Hy. simpl.
    destruct (decide (i < a)%nat).
    + rewrite lookup_app_l by (rewrite length_take; lia).
      rewrite lookup_take_lt, Hy by done.
      replace (a <=? i)%nat with false by (symmetry; apply Nat.leb_gt; lia).
      done.
    + rewrite lookup_app_r by (rewrite length_take; lia).
      rewrite length_take, lookup_replicate_2 by lia.
      replace (a <=? i)%nat with true by (symmetry; apply Nat.leb_le; lia).
      replace (i <? b)%nat with true by (symmetry; apply Nat.ltb_lt; lia).
      done.
  - rewrite lookup_take_ge by lia. symmetry. apply lookup_ge_None.
    rewrite length_app, length_take, length_replicate. lia.
Qed.

Lemma slice_assign_drop {A} a b (x : A) l :
  drop b (slice_assign a b x l) = drop b l.
Proof.
  apply list_eq. intros i. rewrite !lookup_drop, slice_assign_lookup.
  destruct (l !! (b + i)%nat); simpl; [|done].
  replace (b + i <? b)%nat with false by (symmetry; apply Nat.ltb_ge; lia).
  by rewrite andb_false_r.
Qed.

Lemma loop_suffix k : forall i cumcol grp lv,
  length grp = length cumcol ->
  (i + k = length cumcol)%nat ->
  (ref_row lv <= i)%nat ->
  drop (ref_row lv) grp = replicate (length cumcol - ref_row lv) None ->
  (fold_left (loop_body th) (seq i k) (cumcol, grp, lv)).1.2
  = take (ref_row lv) grp
    ++ labels (group lv)
         (replicate (i - ref_row lv) false ++ closes th 0 (drop i cumcol)).
Proof.
  induction k as [|k IH]; intros i cumcol grp lv Hlen Hn Hr Hnone.
  - simpl. rewrite drop_ge by lia. simpl. rewrite app_nil_r, labels_pending.
    replace (i - ref_row lv)%nat with (length cumcol - ref_row lv)%nat by lia.
    rewrite <- Hnone. by rewrite take_drop.
  - simpl.
    destruct (lookup_lt_is_Some_2 cumcol i) as [v Hv]; [lia|].
    rewrite Hv. rewrite (drop_S _ _ _ Hv). simpl.
    rewrite (ge_th_proper (v - 0) v) by ring.
    destruct (ge_th v th) eqn:Hge.
    + rewrite IH; simpl.
      * rewrite slice_assign_take by lia.
        replace (S i - (i + 1))%nat with 0%nat by lia. simpl.
        rewrite labels_close, app_assoc.
        replace (i - ref_row lv + 1)%nat with (i + 1 - ref_row lv)%nat by lia.
        f_equal. f_equal.
        rewrite skipn_map. apply closes_shift. ring.
      * by rewrite slice_assign_length, length_map.
      * rewrite length_map. lia.
      * lia.
      * rewrite slice_assign_drop, length_map.
        replace (i + 1)%nat with (ref_row lv + (i + 1 - ref_row lv))%nat by lia.
        rewrite <- drop_drop, Hnone, drop_replicate. f_equal. lia.
    + rewrite IH by (done || lia).
      f_equal. f_equal.
      replace (S i - ref_row lv)%nat with (S (i - ref_row lv)) by lia.
      rewrite replicate_S_end, <- app_assoc. done.
Qed.

Lemma assign_groups_labels cum :
  assign_groups th cum = labels 0 (closes th 0 cum).
Proof.
  unfold assign_groups, threshold_loop.
  rewrite loop_suffix; simpl;
    rewrite ?length_replicate, ?Nat.sub_0_r; done || lia.
Qed.

Lemma labels_blocks l : forall pre b g,
  Forall (fun x => ge_th (x - b) th = false) pre ->
  Blocks th b g (pre ++ l)
    (labels g (replicate (length pre) false ++ closes th b l)).
Proof.
  induction l as [|c l IH]; intros pre b g Hpre; simpl.
  - rewrite !app_nil_r, labels_pending.
    by constructor.
  - destruct (ge_th (c - b) th) eqn:Hge.
    + rewrite labels_close. constructor; [done..|].
      apply (IH [] c (g + 1)%Z). constructor.
    + specialize (IH (pre ++ [c]) b g).
      rewrite <- app_assoc, length_app in IH. simpl in IH.
      rewrite replicate_add, <- app_assoc in IH. simpl in IH.
      apply IH. apply Forall_app. split; [done|]. by repeat constructor.
Qed.

(** The labels the loop computes cut the column into bars. *)
Lemma assign_groups_blocks cum :
  Blocks th 0 0 cum (assign_groups th cum).
Proof.
  rewrite assign_groups_labels. apply (labels_blocks cum [] 0 0%Z).
  constructor.
Qed.

End loop.

(** ** Running the program *)

Ltac list_cases H :=
  repeat (apply elem_of_cons in H as [->|H]);
  try (by apply elem_of_nil in H).

Section run.

Lemma run_bind {A B} (m : M A) (k : A -> M B) w x w' :
  m w = (inr x, w') -> (m ≫= k) w = k x w'.
Proof. intros H. unfold mbind, M_bind. by rewrite H. Qed.

Lemma run_raise {A B} (m : M A) (k : A -> M B) w e w' :
  m w = (inl e, w') -> (m ≫= k) w = (inl e, w').
Proof. intros H. unfold mbind, M_bind. by rewrite H. Qed.

Lemma run_load l w df : heap w !! l = Some df -> load l w = (inr df, w).
Proof. intros H. unfold load. by rewrite H. Qed.

Lemma run_column l name w df c :
  heap w !! l = Some df -> get_col name df = Some c ->
  column l name w = (inr c, w).
Proof.
  intros H1 H2. unfold column. rewrite (run_bind _ _ _ _ _ (run_load _ _ _ H1)).
  by rewrite H2.
Qed.

Lemma run_group_column l w df g :
  heap w !! l = Some df -> group_col df = Some g ->
  group_column l w = (inr g, w).
Proof.
  intros H1 H2. unfold group_column.
  rewrite (run_bind _ _ _ _ _ (run_load _ _ _ H1)). by rewrite H2.
Qed.

Lemma run_assign_column l name col w df :
  heap w !! l = Some df ->
  assign_column l name col w
  = (inr tt, {| heap := <[l := set_col name col df]> (heap w);
                stdout := stdout w |}).
Proof.
  intros H1. unfold assign_column.
  by rewrite (run_bind _ _ _ _ _ (run_load _ _ _ H1)).
Qed.

Lemma run_copy l w df :
  heap w !! l = Some df ->
  copy l w = (inr (length (heap w)),
              {| heap := heap w ++ [df]; stdout := stdout w |}).
Proof.
  intros H1. unfold copy.
  by rewrite (run_bind _ _ _ _ _ (run_load _ _ _ H1)).
Qed.

Lemma set_get_cum c x g t :
  c ∈ ["cum_ticks"; "cum_vol"; "cum_dol"] ->
  get_col c (set_group g (set_col c x t)) = Some x.
Proof.
  intros Hc. by list_cases Hc.
Qed.

Lemma loop_run th tmp c xs : forall lv w t cum grp,
  c ∈ ["cum_ticks"; "cum_vol"; "cum_dol"] ->
  heap w !! tmp = Some t ->
  get_col c t = Some cum ->
  group_col t = Some grp ->
  exists t' w',
    for_each xs (loop_iteration th tmp c) lv w
    = (inr (fold_left (loop_body th) xs (cum, grp, lv)).2, w')
    /\ heap w' = <[tmp := t']> (heap w)
    /\ stdout w' = stdout w
    /\ group_col t' = Some (fold_left (loop_body th) xs (cum, grp, lv)).1.2.
Proof.
  induction xs as [|row xs IH]; intros lv w t cum grp Hc Ht Hcum Hgrp.
  - exists t, w. simpl. repeat split; try done.
    symmetry. by apply list_insert_id.
  - destruct (loop_body th (cum, grp, lv) row) as [[cum' grp'] lv'] eqn:Hbody.
    set (t1 := set_group grp' (set_col c cum' t)).
    set (w1 := {| heap := <[tmp := t1]> (heap w); stdout := stdout w |}).
    assert (Hlt : (tmp < length (heap w))%nat) by by eapply lookup_lt_Some.
    destruct (IH lv' w1 t1 cum' grp') as (t' & w' & Hrun & Hheap & Hout & Hg);
      [done| |by apply set_get_cum|done|].
    { simpl. by apply list_lookup_insert_eq. }
    exists t', w'. cbn [fold_left]. rewrite Hbody.
    repeat split; try done.
    + cbn [for_each].
      assert (loop_iteration th tmp c lv row w = (inr lv', w1)) as Hit.
      { unfold loop_iteration.
        rewrite (run_bind _ _ _ _ _ (run_load _ _ _ Ht)).
        rewrite (run_bind _ _ _ _ _ (run_column _ _ _ _ _ Ht Hcum)).
        rewrite (run_bind _ _ _ _ _ (run_group_column _ _ _ _ Ht Hgrp)).
        by rewrite Hbody. }
      by rewrite (run_bind _ _ _ _ _ Hit).
    + rewrite Hheap. simpl. by rewrite list_insert_insert_eq.
Qed.

Lemma run_get_auto_threshold df tgt r a w d vals :
  heap w !! df = Some d -> get_col tgt d = Some vals ->
  _get_auto_threshold df tgt r a w
  = (inr ((fun x => np_round x r)
            <$> pre_rounding_threshold (date_time <$> rows d) vals a), w).
Proof.
  intros Hd Hv. unfold _get_auto_threshold.
  rewrite (run_bind _ _ _ _ _ (run_column _ "date_time" _ _ _ Hd eq_refl)).
  by rewrite (run_bind _ _ _ _ _ (run_column _ _ _ _ _ Hd Hv)).
Qed.

Lemma insert_at_end {A} (l : list A) x y :
  <[length l := y]> (l ++ [x]) = l ++ [y].
Proof.
  rewrite insert_app_r_alt by lia. by rewrite Nat.sub_diag.
Qed.

Lemma run_assign_groups df thr tgt c r a w d cum vals :
  c ∈ ["cum_ticks"; "cum_vol"; "cum_dol"] ->
  heap w !! df = Some d ->
  get_col c d = Some cum ->
  length cum = nrows d ->
  get_col tgt d = Some vals ->
  let th := match thr with
            | Fixed q => Some q
            | Auto => (fun x => np_round x r)
                        <$> pre_rounding_threshold (date_time <$> rows d) vals a
            end in
  exists t',
    _assign_groups_threshold df thr tgt c r a w
    = (inr (assign_groups th cum),
       {| heap := heap w ++ [t'];
          stdout := stdout w ++ match thr with Auto => [th] | Fixed _ => [] end |}).
Proof.
  intros Hc Hd Hcum Hlen Hvals th.
  assert (Hlt : (df < length (heap w))%nat) by by eapply lookup_lt_Some.
  unfold _assign_groups_threshold.
  rewrite (run_bind _ _ _ _ _ (run_copy _ _ _ Hd)).
  set (tmp := length (heap w)).
  set (out := stdout w ++ match thr with Auto => [th] | Fixed _ => [] end).
  set (w1 := {| heap := heap w ++ [d]; stdout := out |}).
  assert (Hth : (match thr with
                 | Auto => th ← _get_auto_threshold df tgt r a;
                           _ ← print th; mret th
                 | Fixed th => mret (Some th)
                 end) {| heap := heap w ++ [d]; stdout := stdout w |}
                = (inr th, w1)).
  { subst w1 out th. destruct thr as [|q].
    - erewrite run_bind; [|apply (run_get_auto_threshold _ _ _ _ _ d vals)];
        [done| |done].
      simpl. by rewrite lookup_app_l.
    - simpl. by rewrite app_nil_r. }
  rewrite (run_bind _ _ _ _ _ Hth).
  assert (Htmp : heap w1 !! tmp = Some d).
  { simpl. subst tmp. by rewrite list_lookup_middle. }
  rewrite (run_bind _ _ _ _ _ (run_load _ _ _ Htmp)).
  unfold store at 1, mbind at 1, M_bind at 1.
  simpl heap. simpl stdout. subst tmp. rewrite insert_at_end.
  set (t0 := set_group (replicate (nrows d) None) d).
  set (w2 := {| heap := heap w ++ [t0]; stdout := out |}).
  assert (Hd2 : heap w2 !! df = Some d) by (simpl; by rewrite lookup_app_l).
  rewrite (run_bind _ _ _ _ _ (run_load _ _ _ Hd2)).
  destruct (loop_run th (length (heap w)) c (seq 0 (nrows d)) (Locals 0 0 0%nat)
              w2 t0 cum (replicate (nrows d) None))
    as (t' & w' & Hrun & Hheap & Hout & Hg); [done| | |done|].
  { simpl. by rewrite list_lookup_middle. }
  { subst t0. clear -Hc Hcum. by list_cases Hc. }
  rewrite (run_bind _ _ _ _ _ Hrun).
  simpl in Hheap. rewrite insert_at_end in Hheap.
  exists t'. erewrite run_group_column; [| |exact Hg].
  - unfold assign_groups, threshold_loop. rewrite Hlen.
    f_equal. destruct w' as [h o]. simpl in *. by subst.
  - rewrite Hheap. by rewrite list_lookup_middle.
Qed.

Lemma cumsum_from_length acc l : length (cumsum_from acc l) = length l.
Proof. revert acc. induction l; intros; simpl; auto. Qed.

Lemma cumsum_length l : length (cumsum l) = length l.
Proof. apply cumsum_from_length. Qed.

Lemma measure_column_length bt ts : length (measure_column bt ts) = length ts.
Proof.
  unfold measure_column. repeat case_match.
  - by rewrite length_replicate.
  - by rewrite length_fmap.
  - rewrite length_zip_with, !length_fmap. lia.
Qed.

Lemma rows_set_col name col df : rows (set_col name col df) = rows df.
Proof. unfold set_col. by repeat case_match. Qed.

Lemma lookup_last_cell {A} (l : list A) x : (l ++ [x]) !! length l = Some x.
Proof. by apply list_lookup_middle. Qed.

Ltac mstep lem :=
  erewrite run_bind; [|eapply lem; first [apply lookup_last_cell | eassumption | reflexivity]];
  cbn [heap stdout]; rewrite ?insert_at_end.

Lemma run_groupby_agg w l a g t d :
  heap w !! l = Some a ->
  get_col "ticks" a = Some t -> get_col "dollar" a = Some d ->
  groupby_agg l g w
  = (inr (aggregate (date_time <$> rows a) (price <$> rows a) t
            (volume <$> rows a) d g), w).
Proof.
  intros Hl Ht Hd.
  unfold groupby_agg.
  rewrite (run_bind _ _ _ _ _ (run_column _ "date_time" _ _ _ Hl eq_refl)).
  rewrite (run_bind _ _ _ _ _ (run_column _ "price" _ _ _ Hl eq_refl)).
  rewrite (run_bind _ _ _ _ _ (run_column _ "ticks" _ _ _ Hl Ht)).
  rewrite (run_bind _ _ _ _ _ (run_column _ "volume" _ _ _ Hl eq_refl)).
  by rewrite (run_bind _ _ _ _ _ (run_column _ "dollar" _ _ _ Hl Hd)).
Qed.

(** What a call of [sample_bar] on a supported bar type computes and
    what it leaves behind: the caller's frames as they were, the two
    working copies, and the printed threshold in automatic mode. *)
Lemma run_sample_bar_ok w l d bt thr r a :
  heap w !! l = Some d ->
  bt ∈ POSSIBLE_BAR_TYPES ->
  let ts := rows d in
  let th := resolved_threshold thr bt ts r a in
  exists aux' tmp',
    sample_bar l bt thr r a w
    = (inr (bars_of ts (assign_groups th (cumsum (measure_column bt ts)))),
       {| heap := heap w ++ [aux'; tmp'];
          stdout := stdout w ++ match thr with Auto => [th] | Fixed _ => [] end |}).
Proof.
  intros Hd Hbt ts th.
  unfold sample_bar.
  assert (existsb (String.eqb bt) POSSIBLE_BAR_TYPES = true) as ->.
  { unfold POSSIBLE_BAR_TYPES in *. clear -Hbt. by list_cases Hbt. }
  cbn [negb].
  rewrite (run_bind _ _ _ _ _ (run_copy _ _ _ Hd)).
  mstep run_load. fold (nrows d).
  mstep run_assign_column.
  mstep run_column.
  mstep run_column.
  mstep run_assign_column.
  rewrite !rows_set_col.
  set (tk := replicate (nrows d) 1).
  set (dl := zip_with Qmult (price <$> rows d) (volume <$> rows d)).
  set (a2 := set_col "dollar" dl (set_col "ticks" tk d)).
  assert (Hr2 : rows a2 = rows d) by (subst a2; by rewrite !rows_set_col).
  unfold POSSIBLE_BAR_TYPES in Hbt.
  list_cases Hbt; cbn [String.eqb Ascii.eqb Bool.eqb].
  - unfold _get_tick_bar.
    mstep run_column. mstep run_assign_column.
    set (a3 := set_col "cum_ticks" _ _).
    edestruct (run_assign_groups (length (heap w)) thr "ticks" "cum_ticks" r a
                {| heap := heap w ++ [a3]; stdout := stdout w |} a3)
      as [t' Hrun]; [repeat constructor|apply lookup_last_cell|reflexivity|
                     |reflexivity|].
    { rewrite cumsum_length. subst tk. by rewrite length_replicate. }
    rewrite (run_bind _ _ _ _ _ Hrun). cbn [heap stdout].
    rewrite (run_groupby_agg _ _ a3 _ tk dl); [| |done..].
    2: { cbn [heap]. rewrite lookup_app_l by (rewrite length_app; simpl; lia).
         apply lookup_last_cell. }
    exists a3, t'. rewrite <- app_assoc.
    subst a3. rewrite !rows_set_col, !Hr2. done.
  - unfold _get_volume_bar.
    mstep run_column. mstep run_assign_column.
    set (a3 := set_col "cum_vol" _ _).
    edestruct (run_assign_groups (length (heap w)) thr "volume" "cum_vol" r a
                {| heap := heap w ++ [a3]; stdout := stdout w |} a3)
      as [t' Hrun]; [repeat constructor|apply lookup_last_cell|reflexivity|
                     |reflexivity|].
    { rewrite cumsum_length, length_fmap. unfold nrows. subst a3. by rewrite rows_set_col. }
    rewrite (run_bind _ _ _ _ _ Hrun). cbn [heap stdout].
    rewrite (run_groupby_agg _ _ a3 _ tk dl); [| |done..].
    2: { cbn [heap]. rewrite lookup_app_l by (rewrite length_app; simpl; lia).
         apply lookup_last_cell. }
    exists a3, t'. rewrite <- app_assoc.
    subst a3. rewrite !rows_set_col, !Hr2. done.
  - unfold _get_dollar_bar.
    mstep run_column. mstep run_assign_column.
    set (a3 := set_col "cum_dol" _ _).
    edestruct (run_assign_groups (length (heap w)) thr "dollar" "cum_dol" r a
                {| heap := heap w ++ [a3]; stdout := stdout w |} a3)
      as [t' Hrun]; [repeat constructor|apply lookup_last_cell|reflexivity|
                     |reflexivity|].
    { rewrite cumsum_length. subst dl a3. rewrite length_zip_with, !length_fmap. unfold nrows. rewrite rows_set_col, Hr2. lia. }
    rewrite (run_bind _ _ _ _ _ Hrun). cbn [heap stdout].
    rewrite (run_groupby_agg _ _ a3 _ tk dl); [| |done..].
    2: { cbn [heap]. rewrite lookup_app_l by (rewrite length_app; simpl; lia).
         apply lookup_last_cell. }
    exists a3, t'. rewrite <- app_assoc.
    subst a3. rewrite !rows_set_col, !Hr2. done.
Qed.

End run.

(** ** Consequences of the cut into bars *)

Section blocks.
Context (th : option Q).

Lemma run_lookup_l {A} (x : A) m gs i :
  (i < m)%nat -> (replicate m x ++ gs) !! i = Some x.
Proof.
  intros Hi. rewrite lookup_app_l by (rewrite length_replicate; lia).
  by apply lookup_replicate_2.
Qed.

Lemma run_lookup_r {A} (x : A) m gs i :
  (m <= i)%nat -> (replicate m x ++ gs) !! i = gs !! (i - m)%nat.
Proof.
  intros Hi. rewrite lookup_app_r by (rewrite length_replicate; lia).
  by rewrite length_replicate.
Qed.

Lemma bar_lookup_pre {A} (pre : list A) c rest i :
  (i < length pre)%nat -> (pre ++ c :: rest) !! i = pre !! i.
Proof. intros Hi. by rewrite lookup_app_l. Qed.

Lemma bar_lookup_close {A} (pre : list A) c rest :
  (pre ++ c :: rest) !! length pre = Some c.
Proof. by apply list_lookup_middle. Qed.

Lemma bar_lookup_rest {A} (pre : list A) c rest i :
  (length pre < i)%nat ->
  (pre ++ c :: rest) !! i = rest !! (i - (length pre + 1))%nat.
Proof.
  intros Hi. rewrite lookup_app_r by lia.
  replace (i - length pre)%nat with (S (i - (length pre + 1))) by lia. done.
Qed.

Lemma Blocks_length b g l gs : Blocks th b g l gs -> length gs = length l.
Proof.
  induction 1 as [b g tail _|b g pre c rest gs _ _ _ IH].
  - by rewrite length_replicate.
  - rewrite !length_app, length_replicate. simpl. lia.
Qed.

Lemma Blocks_labels_ge b g l gs :
  Blocks th b g l gs -> forall i h, gs !! i = Some (Some h) -> (g <= h)%Z.
Proof.
  induction 1 as [b g tail _|b g pre c rest gs _ _ _ IH]; intros i h Hi.
  - apply lookup_replicate in Hi as [? _]. done.
  - destruct (decide (i < length pre + 1)%nat).
    + rewrite run_lookup_l in Hi by done. injection Hi as ->. lia.
    + rewrite run_lookup_r in Hi by lia. apply IH in Hi. lia.
Qed.

Lemma Blocks_first b g l gs :
  Blocks th b g l gs -> forall h, gs !! 0%nat = Some (Some h) -> h = g.
Proof.
  destruct 1 as [b g tail _|b g pre c rest gs _ _ _]; intros h Hh.
  - apply lookup_replicate in Hh as [? _]. done.
  - rewrite run_lookup_l in Hh by lia. by injection Hh.
Qed.

Lemma Blocks_step b g l gs :
  Blocks th b g l gs ->
  forall i h h', gs !! i = Some (Some h) -> gs !! S i = Some (Some h') ->
                 h' = h \/ h' = (h + 1)%Z.
Proof.
  induction 1 as [b g tail _|b g pre c rest gs _ _ Hrest IH]; intros i h h' Hi Hi'.
  - apply lookup_replicate in Hi as [? _]. done.
  - destruct (decide (S i < length pre + 1)%nat).
    + rewrite run_lookup_l in Hi, Hi' by lia. left. congruence.
    + destruct (decide (S i = length pre + 1)%nat) as [E|].
      * rewrite run_lookup_l in Hi by lia.
        rewrite run_lookup_r, E, Nat.sub_diag in Hi' by lia.
        apply (Blocks_first _ _ _ _ Hrest) in Hi'. right. congruence.
      * rewrite run_lookup_r in Hi, Hi' by lia.
        replace (S i - (length pre + 1))%nat
          with (S (i - (length pre + 1))) in Hi' by lia.
        eauto.
Qed.

Lemma Blocks_mono b g l gs :
  Blocks th b g l gs ->
  forall i j h h', (i <= j)%nat ->
    gs !! i = Some (Some h) -> gs !! j = Some (Some h') -> (h <= h')%Z.
Proof.
  induction 1 as [b g tail _|b g pre c rest gs _ _ Hrest IH];
    intros i j h h' Hij Hi Hj.
  - apply lookup_replicate in Hi as [? _]. done.
  - destruct (decide (i < length pre + 1)%nat).
    + rewrite run_lookup_l in Hi by done. injection Hi as <-.
      destruct (decide (j < length pre + 1)%nat).
      * rewrite run_lookup_l in Hj by done. injection Hj as <-. lia.
      * rewrite run_lookup_r in Hj by lia.
        apply (Blocks_labels_ge _ _ _ _ Hrest) in Hj. lia.
    + rewrite run_lookup_r in Hi, Hj by lia.
      eapply (IH _ _ _ _ _ Hi Hj). Unshelve. lia.
Qed.

(** The labelled rows are a prefix; the rows after it carry [NaN] and
    never reach the threshold from the baseline of the last closing row. *)
Lemma Blocks_split b g l gs :
  Blocks th b g l gs ->
  exists k, (k <= length l)%nat
    /\ (forall i, (i < k)%nat -> exists h, gs !! i = Some (Some h))
    /\ (forall i, (k <= i < length l)%nat ->
          gs !! i = Some None
          /\ ge_th (default 0 (l !! i) - baseline_at b l k) th = false).
Proof.
  induction 1 as [b g tail Htail|b g pre c rest gs _ _ Hrest IH].
  - exists 0%nat. split; [lia|]. split; [intros; lia|].
    intros i Hi. split; [apply lookup_replicate_2; lia|].
    destruct (lookup_lt_is_Some_2 tail i) as [x Hx]; [lia|].
    rewrite Hx. simpl. eapply Forall_lookup_1 in Htail; eauto.
  - destruct IH as (k & Hk & Hlab & Hnan).
    exists (length pre + 1 + k)%nat. rewrite length_app. simpl.
    split; [lia|]. split.
    + intros i Hi. destruct (decide (i < length pre + 1)%nat).
      * exists g. by apply run_lookup_l.
      * rewrite run_lookup_r by lia. apply Hlab. lia.
    + intros i Hi. rewrite run_lookup_r by lia.
      destruct (Hnan (i - (length pre + 1))%nat) as [H1 H2]; [lia|].
      split; [done|].
      rewrite bar_lookup_rest by lia.
      replace (baseline_at b (pre ++ c :: rest) (length pre + 1 + k))
        with (baseline_at c rest k); [done|].
      replace (length pre + 1 + k)%nat with (S (length pre + k)) by lia.
      destruct k as [|k]; simpl.
      * by rewrite Nat.add_0_r, bar_lookup_close.
      * rewrite bar_lookup_rest by lia. do 2 f_equal. lia.
Qed.

(** In a group the threshold is reached at the last row and at no
    earlier row, counting from the baseline at the start of the group. *)
Lemma Blocks_interval b g0 l gs :
  Blocks th b g0 l gs ->
  forall g s e, group_rows gs g s e ->
    ge_th (default 0 (l !! e) - baseline_at b l s) th = true
    /\ forall i, (s <= i < e)%nat ->
         ge_th (default 0 (l !! i) - baseline_at b l s) th = false.
Proof.
  induction 1 as [b g0 tail _|b g0 pre c rest gs Hpre Hc Hrest IH];
    intros g s e (Hse & Hin & Hout).
  - specialize (Hin s ltac:(lia)).
    apply lookup_replicate in Hin as [? _]. done.
  - set (m := length pre) in *.
    destruct (decide (g = g0)) as [->|Hg].
    + assert (s = 0%nat) as ->.
      { pose proof (Hout 0%nat (run_lookup_l (Some g0) (m + 1) gs 0 ltac:(lia))).
        lia. }
      assert (e = m) as ->.
      { pose proof (Hout m (run_lookup_l (Some g0) (m + 1) gs m ltac:(lia))).
        destruct (decide (e <= m)%nat); [lia|].
        specialize (Hin e ltac:(lia)).
        rewrite run_lookup_r in Hin by lia.
        apply (Blocks_labels_ge _ _ _ _ Hrest) in Hin. lia. }
      simpl. subst m. rewrite bar_lookup_close. simpl. split; [done|].
      intros i Hi. rewrite bar_lookup_pre by lia.
      destruct (lookup_lt_is_Some_2 pre i) as [x Hx]; [lia|].
      rewrite Hx. simpl. eapply Forall_lookup_1 in Hpre; eauto.
    + assert (m + 1 <= s)%nat as Hs.
      { destruct (decide (m + 1 <= s)%nat); [done|].
        specialize (Hin s ltac:(lia)).
        rewrite run_lookup_l in Hin by lia. congruence. }
      destruct (IH g (s - (m + 1))%nat (e - (m + 1))%nat) as [H1 H2].
      { split; [lia|]. split.
        - intros i Hi. specialize (Hin (i + (m + 1))%nat ltac:(lia)).
          rewrite run_lookup_r in Hin by lia.
          by replace (i + (m + 1) - (m + 1))%nat with i in Hin by lia.
        - intros i Hi. specialize (Hout (i + (m + 1))%nat).
          rewrite run_lookup_r in Hout by lia.
          replace (i + (m + 1) - (m + 1))%nat with i in Hout by lia.
          specialize (Hout Hi). lia. }
      assert (baseline_at b (pre ++ c :: rest) s
              = baseline_at c rest (s - (m + 1))) as ->.
      { destruct s as [|s]; [lia|]. simpl.
        destruct (decide (s = m)) as [->|].
        - subst m. rewrite bar_lookup_close.
          by replace (S (length pre) - (length pre + 1))%nat with 0%nat by lia.
        - subst m. rewrite bar_lookup_rest by lia.
          replace (S s - (length pre + 1))%nat
            with (S (s - (length pre + 1))) by lia. done. }
      subst m. split.
      * by rewrite bar_lookup_rest by lia.
      * intros i Hi. rewrite bar_lookup_rest by lia. apply H2. lia.
Qed.

End blocks.

(** ** Grouping and aggregation *)

Section groupby.

Lemma fold_left_Qplus l : forall acc,
  fold_left Qplus l acc == acc + fold_left Qplus l 0.
Proof.
  induction l as [|x l IH]; intros acc; simpl; [ring|].
  rewrite (IH (acc + x)), (IH (0 + x)). ring.
Qed.

Lemma sum_cons x l : sum (x :: l) == x + sum l.
Proof. unfold sum. simpl. rewrite fold_left_Qplus. ring. Qed.

Lemma sum_ones m : sum (replicate m 1) == inject_Z (Z.of_nat m).
Proof.
  induction m as [|m IH]; [reflexivity|].
  cbn [replicate]. rewrite sum_cons, IH.
  rewrite Nat2Z.inj_succ, <- Z.add_1_l, inject_Z_plus. reflexivity.
Qed.

Lemma elem_of_insert_key x k ks : x ∈ insert_key k ks <-> x = k \/ x ∈ ks.
Proof.
  induction ks as [|k' ks IH]; simpl.
  - rewrite list_elem_of_singleton. split; [auto|].
    intros [?|H]; [done|]. by apply elem_of_nil in H.
  - destruct (Z.ltb_spec k k').
    + by rewrite elem_of_cons.
    + destruct (Z.eqb_spec k k') as [->|].
      * rewrite elem_of_cons. tauto.
      * rewrite !elem_of_cons, IH. tauto.
Qed.

Lemma elem_of_group_keys x gs : x ∈ group_keys gs <-> Some x ∈ gs.
Proof.
  unfold group_keys. induction gs as [|[y|] gs IH]; simpl.
  - split; intros H; by apply elem_of_nil in H.
  - rewrite elem_of_insert_key, elem_of_cons, IH.
    split; (intros [?|?]; [left; congruence|by right]).
  - rewrite elem_of_cons, IH. split; [auto|]. intros [?|?]; done.
Qed.

Lemma group_keys_run g m gs :
  (forall x, Some x ∈ gs -> (g < x)%Z) ->
  group_keys (replicate (S m) (Some g) ++ gs) = g :: group_keys gs.
Proof.
  intros Hgs. induction m as [|m IH].
  - change (group_keys (replicate 1 (Some g) ++ gs))
      with (insert_key g (group_keys gs)).
    destruct (group_keys gs) as [|k ks] eqn:E; [done|]. simpl.
    assert (g < k)%Z as Hk.
    { apply Hgs, elem_of_group_keys. rewrite E. by left. }
    apply Z.ltb_lt in Hk. by rewrite Hk.
  - change (group_keys (replicate (S (S m)) (Some g) ++ gs))
      with (insert_key g (group_keys (replicate (S m) (Some g) ++ gs))).
    rewrite IH. simpl. rewrite Z.ltb_irrefl, Z.eqb_refl. done.
Qed.

Lemma group_keys_nan m : group_keys (replicate m None) = [].
Proof. induction m; [done|]. by simpl. Qed.

Lemma rows_where_run_same {A} (g : Z) m gs (col : list A) :
  rows_where (Some g) (replicate m (Some g) ++ gs) col
  = take m col ++ rows_where (Some g) gs (drop m col).
Proof.
  revert col. induction m as [|m IH]; intros col; simpl.
  - by rewrite drop_0.
  - destruct col as [|x col]; simpl.
    + by destruct gs.
    + rewrite decide_True by done. by rewrite IH.
Qed.

Lemma rows_where_run_other {A} (k g : Z) m gs (col : list A) :
  k <> g ->
  rows_where (Some k) (replicate m (Some g) ++ gs) col
  = rows_where (Some k) gs (drop m col).
Proof.
  intros Hk. revert col. induction m as [|m IH]; intros col; simpl.
  - by rewrite drop_0.
  - destruct col as [|x col]; simpl.
    + by destruct gs.
    + rewrite decide_False by congruence. by rewrite IH.
Qed.

Lemma rows_where_absent {A} (k : Z) gs (col : list A) :
  Some k ∉ gs -> rows_where (Some k) gs col = [].
Proof.
  revert col. induction gs as [|g gs IH]; intros col Hk; simpl; [done|].
  destruct col as [|x col]; [done|].
  rewrite not_elem_of_cons in Hk. destruct Hk as [Hne Hk].
  rewrite decide_False by congruence. by apply IH.
Qed.

Lemma aggregate_run dt p t v d g m gs :
  (forall x, Some x ∈ gs -> (g < x)%Z) ->
  aggregate dt p t v d (replicate (S m) (Some g) ++ gs)
  = make_bar (take (S m) dt) (take (S m) p) (take (S m) t)
      (take (S m) v) (take (S m) d)
    :: aggregate (drop (S m) dt) (drop (S m) p) (drop (S m) t)
         (drop (S m) v) (drop (S m) d) gs.
Proof.
  intros Hgs. unfold aggregate. rewrite group_keys_run by done.
  cbn [fmap list_fmap]. f_equal.
  - rewrite !rows_where_run_same.
    assert (Some g ∉ gs) as Hg by (intros H; apply Hgs in H; lia).
    rewrite !rows_where_absent, !app_nil_r by done. done.
  - apply list_fmap_ext. intros i k Hk.
    assert (k <> g) as Hne.
    { apply list_elem_of_lookup_2, elem_of_group_keys, Hgs in Hk. lia. }
    by rewrite !rows_where_run_other.
Qed.

Lemma aggregate_nan dt p t v d m :
  aggregate dt p t v d (replicate m None) = [].
Proof. unfold aggregate. by rewrite group_keys_nan. Qed.

End groupby.

(** ** The bars of a labelled column *)

Section bars.
Context (th : option Q).

Lemma Blocks_labels_gt b g l gs :
  Blocks th b (g + 1) l gs -> forall x, Some x ∈ gs -> (g < x)%Z.
Proof.
  intros HB x Hx. apply list_elem_of_lookup_1 in Hx as [i Hi].
  apply (Blocks_labels_ge _ _ _ _ _ HB) in Hi. lia.
Qed.

Lemma sum_bar_ticks_cons bar bars :
  sum (bar_ticks <$> bar :: bars) == bar_ticks bar + sum (bar_ticks <$> bars).
Proof. cbn [fmap list_fmap]. apply sum_cons. Qed.

(** The labelled rows are a prefix of the column and the bars hold these
    rows only: there is one bar for each label, the tick counts of the
    bars add up to the length of the prefix, and the rows after it carry
    [NaN] and stay below the threshold. *)
Lemma Blocks_bars b g l gs :
  Blocks th b g l gs ->
  forall dt p v d,
  let bars := aggregate dt p (replicate (length l) 1) v d gs in
  exists k, (k <= length l)%nat
    /\ (forall i, (i < k)%nat ->
          exists h, gs !! i = Some (Some h)
                    /\ (g <= h < g + Z.of_nat (length bars))%Z)
    /\ (forall i, (k <= i < length l)%nat ->
          gs !! i = Some None
          /\ ge_th (default 0 (l !! i) - baseline_at b l k) th = false)
    /\ sum (bar_ticks <$> bars) == inject_Z (Z.of_nat k)
    /\ (k = 0%nat /\ bars = []
        \/ (0 < k)%nat
           /\ gs !! (k - 1)%nat
              = Some (Some (g + Z.of_nat (length bars) - 1)%Z)).
Proof.
  induction 1 as [b g tail Htail|b g pre c rest gs _ _ Hrest IH];
    intros dt p v d bars.
  - subst bars. rewrite aggregate_nan.
    exists 0%nat. split; [lia|]. split; [intros; lia|]. split; [|split].
    + intros i Hi. split; [apply lookup_replicate_2; lia|].
      destruct (lookup_lt_is_Some_2 tail i) as [x Hx]; [lia|].
      rewrite Hx. simpl. eapply Forall_lookup_1 in Htail; eauto.
    + reflexivity.
    + by left.
  - set (m := length pre) in *.
    assert (length (pre ++ c :: rest) = (S m + length rest)%nat) as Hlen
        by (rewrite length_app; simpl; lia).
    subst bars. rewrite Hlen.
    replace (m + 1)%nat with (S m) by lia.
    rewrite aggregate_run by (by eapply Blocks_labels_gt).
    rewrite take_replicate, drop_replicate.
    replace (S m `min` (S m + length rest))%nat with (S m) by lia.
    replace (S m + length rest - S m)%nat with (length rest) by lia.
    destruct (IH (drop (S m) dt) (drop (S m) p) (drop (S m) v) (drop (S m) d))
      as (k & Hk & Hlab & Hnan & Hsum & Hlast).
    set (bars' := aggregate _ _ _ _ _ gs) in *.
    exists (S m + k)%nat. split; [lia|]. split; [|split; [|split]].
    + intros i Hi. cbn [length]. destruct (decide (i < S m)%nat).
      * exists g. split; [by apply run_lookup_l|lia].
      * rewrite run_lookup_r by lia.
        destruct (Hlab (i - S m)%nat) as (h & Hh & Hb); [lia|].
        exists h. split; [done|lia].
    + intros i Hi. rewrite run_lookup_r by lia.
      destruct (Hnan (i - S m)%nat) as [H1 H2]; [lia|].
      split; [done|].
      subst m. rewrite bar_lookup_rest by lia.
      replace (i - (length pre + 1))%nat with (i - S (length pre))%nat by lia.
      replace (baseline_at b (pre ++ c :: rest) (S (length pre) + k))
        with (baseline_at c rest k); [done|].
      destruct k as [|k]; simpl.
      * by rewrite Nat.add_0_r, bar_lookup_close.
      * rewrite bar_lookup_rest by lia. do 2 f_equal. lia.
    + rewrite sum_bar_ticks_cons, Hsum. cbn [make_bar bar_ticks].
      rewrite sum_ones, <- inject_Z_plus.
      replace (Z.of_nat (S m + k)) with (Z.of_nat (S m) + Z.of_nat k)%Z by lia.
      reflexivity.
    + right. split; [lia|]. cbn [length].
      destruct Hlast as [[-> ->]|[Hk0 Hl]].
      * rewrite run_lookup_l by lia. do 2 f_equal. simpl. lia.
      * rewrite run_lookup_r by lia.
        replace (S m + k - 1 - S m)%nat with (k - 1)%nat by lia.
        rewrite Hl. do 2 f_equal. lia.
Qed.

End bars.

(** ** Tick bars *)

Section ticks.

Lemma cumsum_from_drop l : forall b i x,
  cumsum_from b l !! i = Some x ->
  drop (S i) (cumsum_from b l) = cumsum_from x (drop (S i) l).
Proof.
induction l as [|y l IH]; intros b i x Hx; [done|].
destruct i as [|i]; simpl in *.
- injection Hx as <-. by rewrite !drop_0.
- by apply IH.
Qed.

Lemma cumsum_ones_lookup n : forall b i x,
  cumsum_from b (replicate n 1) !! i = Some x ->
  x == b + inject_Z (Z.of_nat (S i)).
Proof.
induction n as [|n IH]; intros b i x Hx; [done|].
destruct i as [|i]; simpl in Hx.
- injection Hx as <-. reflexivity.
- apply IH in Hx. rewrite Hx.
  rewrite (Nat2Z.inj_succ (S i)), <- Z.add_1_l, inject_Z_plus.
  change (inject_Z 1) with 1. ring.
Qed.

Lemma Qadd_sub_cancel (b z : Q) : b + z - b == z.
Proof. ring. Qed.

Lemma inject_Z_nat_le (a : nat) (T : Z) :
  inject_Z T <= inject_Z (Z.of_nat a) <-> (T <= Z.of_nat a)%Z.
Proof. by rewrite <- Zle_Qle. Qed.

(** With one tick per row and an integer threshold [T >= 1] every bar has
    exactly [T] rows, and [n] rows give [n / T] bars. *)
Lemma unit_blocks (T : Z) :
  (0 < T)%Z ->
  forall b g l gs, Blocks (Some (inject_Z T)) b g l gs ->
  forall n dt p v d, l = cumsum_from b (replicate n 1) ->
    let bars := aggregate dt p (replicate n 1) v d gs in
    Forall (fun bar => bar_ticks bar == inject_Z T) bars
    /\ Z.of_nat (length bars) = (Z.of_nat n / T)%Z.
Proof.
intros HT b g l gs HB.
induction HB as [b g tail Htail|b g pre c rest gs Hpre Hc Hrest IH];
  intros n dt p v d Hl bars.
- subst bars. rewrite aggregate_nan. split; [constructor|]. simpl.
  destruct n as [|n]; [by rewrite Z.div_0_l by lia|].
  symmetry. apply Z.div_small. split; [lia|].
  destruct (lookup_lt_is_Some_2 tail n) as [x Hn].
  { rewrite Hl, cumsum_from_length, length_replicate. lia. }
  pose proof (Forall_lookup_1 _ _ _ _ Htail Hn) as Hlt.
  apply ge_th_false in Hlt.
  rewrite Hl in Hn. apply cumsum_ones_lookup in Hn. rewrite Hn in Hlt.
  rewrite Qadd_sub_cancel, <- Zlt_Qlt in Hlt. done.
- set (m := length pre) in *.
  assert (length (pre ++ c :: rest) = (S m + length rest)%nat) as Hlen
      by (rewrite length_app; simpl; lia).
  assert (n = (S m + length rest)%nat) as Hn.
  { rewrite <- Hlen, Hl, cumsum_from_length, length_replicate. done. }
  assert (cumsum_from b (replicate n 1) !! m = Some c) as Hcm.
  { rewrite <- Hl. apply bar_lookup_close. }
  assert (rest = cumsum_from c (replicate (length rest) 1)) as Hrest_eq.
  { pose proof (cumsum_from_drop _ _ _ _ Hcm) as Hd.
    rewrite <- Hl, drop_replicate in Hd.
    replace (S m) with (length (pre ++ [c])) in Hd at 1
      by (rewrite length_app; simpl; lia).
    rewrite (cons_middle c pre rest), app_assoc, drop_app_length in Hd.
    etrans; [exact Hd|]. f_equal. f_equal. lia. }
  assert (Z.of_nat (S m) = T) as HmT.
  { apply cumsum_ones_lookup in Hcm.
    apply ge_th_true in Hc. rewrite Hcm in Hc.
    rewrite Qadd_sub_cancel in Hc. apply inject_Z_nat_le in Hc.
    destruct (decide (m = 0%nat)) as [E|E]; [lia|].
    destruct (lookup_lt_is_Some_2 pre (m - 1)%nat) as [x Hp]; [lia|].
    pose proof (Forall_lookup_1 _ _ _ _ Hpre Hp) as Hlt.
    apply ge_th_false in Hlt.
    assert (cumsum_from b (replicate n 1) !! (m - 1)%nat = Some x) as Hp'.
    { rewrite <- Hl. rewrite bar_lookup_pre by lia. done. }
    apply cumsum_ones_lookup in Hp'. rewrite Hp' in Hlt.
    rewrite Qadd_sub_cancel, <- Zlt_Qlt in Hlt. lia. }
  subst bars. rewrite Hn.
  replace (m + 1)%nat with (S m) by lia.
  rewrite aggregate_run by (by eapply Blocks_labels_gt).
  rewrite take_replicate, drop_replicate.
  replace (S m `min` (S m + length rest))%nat with (S m) by lia.
  replace (S m + length rest - S m)%nat with (length rest) by lia.
  destruct (IH (length rest) (drop (S m) dt) (drop (S m) p) (drop (S m) v)
              (drop (S m) d) Hrest_eq) as [Hall Hcount].
  split.
  + constructor; [|done]. cbn [make_bar bar_ticks].
    rewrite sum_ones, HmT. reflexivity.
  + cbn [length]. rewrite Nat2Z.inj_succ, Hcount.
    rewrite Nat2Z.inj_add, HmT.
    replace (T + Z.of_nat (length rest))%Z
      with (1 * T + Z.of_nat (length rest))%Z by lia.
    rewrite Z.div_add_l by lia. lia.
Qed.

(** With one tick per row and a threshold that is not positive every row
    closes a bar of its own. *)
Lemma nonpositive_blocks (t : Q) :
  t <= 0 ->
  forall b g l gs, Blocks (Some t) b g l gs ->
  forall n dt p v d, l = cumsum_from b (replicate n 1) ->
    length (aggregate dt p (replicate n 1) v d gs) = n.
Proof.
intros Ht b g l gs HB.
assert (forall b' x, x == b' + inject_Z (Z.of_nat 1) ->
          ge_th (x - b') (Some t) = false -> False) as Hfirst.
{ intros b' x Ex Hx. apply ge_th_false in Hx. rewrite Ex in Hx.
  rewrite Qadd_sub_cancel in Hx. change (inject_Z (Z.of_nat 1)) with 1 in Hx.
  apply (Qlt_irrefl 0). apply Qlt_trans with 1; [reflexivity|].
  by apply Qlt_le_trans with t. }
induction HB as [b g tail Htail|b g pre c rest gs Hpre Hc Hrest IH];
  intros n dt p v d Hl.
- rewrite aggregate_nan. destruct n as [|n]; [done|]. exfalso.
  destruct tail as [|x tail]; [done|].
  apply Forall_cons in Htail as [Hx _].
  apply (Hfirst b x); [|done].
  apply (cumsum_ones_lookup (S n) b 0%nat). by rewrite <- Hl.
- destruct pre as [|x pre].
  + destruct n as [|n]; [done|]. simpl in Hl.
    injection Hl as -> ->.
    change (length (@nil Q) + 1)%nat with 1%nat.
    rewrite (aggregate_run _ _ _ _ _ _ 0%nat) by (by eapply Blocks_labels_gt).
    cbn [length]. f_equal. rewrite drop_replicate.
    replace (S n - 1)%nat with n by lia.
    by apply IH.
  + exfalso. apply Forall_cons in Hpre as [Hx _].
    apply (Hfirst b x); [|done].
    apply (cumsum_ones_lookup n b 0%nat). by rewrite <- Hl.
Qed.

End ticks.

(** ** The loop of the source and the single pass of the specification *)

Section refinement.
Context (th : Q) (cum : list Q).

Let n := length cum.

(** The two passes go in lockstep: same labels, same counters, and the
    column the source rebases in place is the cumulative column minus the
    baseline of the single pass. *)
Lemma lockstep k :
  (k <= n)%nat ->
  exists cumcol grp lv b,
    fold_left (loop_body (Some th)) (seq 0 k)
      (cum, replicate n None, Locals 0 0 0%nat) = (cumcol, grp, lv)
    /\ fold_left (spec_step th cum) (seq 0 k)
         (SpecState 0 0%nat 0 (replicate n None))
       = SpecState (group lv) (ref_row lv) b grp
    /\ length cumcol = n /\ length grp = n
    /\ (forall j c, cum !! j = Some c ->
          exists c', cumcol !! j = Some c' /\ c' == c - b)
    /\ (ref_row lv <= k)%nat
    /\ (forall i h, grp !! i = Some (Some h) ->
          (i < ref_row lv)%nat /\ (h < group lv)%Z)
    /\ (forall i, (i < ref_row lv)%nat -> exists h, grp !! i = Some (Some h)).
Proof.
induction k as [|k IH]; intros Hk.
- exists cum, (replicate n None), (Locals 0 0 0%nat), 0. simpl.
  split; [done|]. split; [done|]. split; [done|].
  split; [by rewrite length_replicate|].
  split; [|split; [lia|split]].
  + intros j c Hj. exists c. split; [done|]. ring.
  + intros i h Hi. apply lookup_replicate in Hi as [? _]. done.
  + intros i Hi. lia.
- destruct IH as (cumcol & grp & lv & b & Hsrc & Hspec & Hlc & Hlg & Hcol
                  & Hr & Hlab & Hpre); [lia|].
  rewrite seq_S, !fold_left_app, Hsrc, Hspec. cbn [fold_left Nat.add].
  destruct (lookup_lt_is_Some_2 cum k) as [c Hc]; [fold n; lia|].
  destruct (Hcol k c Hc) as (c' & Hc' & Ec).
  unfold loop_body, spec_step. rewrite Hc, Hc'. cbn [baseline].
  assert (Qle_bool th (c - b) = ge_th c' (Some th)) as ->.
  { simpl. apply eq_true_iff_eq. rewrite !Qle_bool_iff, Ec. tauto. }
  destruct (ge_th c' (Some th)) eqn:Hge.
  + eexists _, _, _, c. split; [reflexivity|]. cbn [group ref_row].
    cbn [group_id group_start_index assignment].
    split; [reflexivity|].
    split; [by rewrite length_map|].
    split; [by rewrite slice_assign_length|].
    split; [|split; [lia|split]].
    * intros j x Hj. destruct (Hcol j x Hj) as (x' & Hx' & Ex).
      exists (x' - c'). split.
      -- rewrite list_lookup_fmap. by rewrite Hx'.
      -- rewrite Ex, Ec. ring.
    * intros i h Hi. rewrite slice_assign_lookup in Hi.
      destruct (grp !! i) as [o|] eqn:Hgi; [|done]. simpl in Hi.
      destruct ((ref_row lv <=? i)%nat && (i <? k + 1)%nat) eqn:Hin.
      -- apply andb_true_iff in Hin as [_ Hin]. apply Nat.ltb_lt in Hin.
         injection Hi as <-. lia.
      -- injection Hi as ->. apply Hlab in Hgi. lia.
    * intros i Hi. rewrite slice_assign_lookup.
      destruct (lookup_lt_is_Some_2 grp i) as [o Ho]; [lia|].
      rewrite Ho. simpl.
      destruct ((ref_row lv <=? i)%nat && (i <? k + 1)%nat) eqn:Hin; [eauto|].
      destruct (decide (i < ref_row lv)%nat) as [Hlt|Hge'].
      -- destruct (Hpre i Hlt) as [h Hh]. exists h. congruence.
      -- apply andb_false_iff in Hin as [Hin|Hin].
         ++ apply Nat.leb_gt in Hin. lia.
         ++ apply Nat.ltb_ge in Hin. lia.
  + exists cumcol, grp, lv, b. destruct lv.
    split; [done|]. split; [done|]. split; [done|]. split; [done|].
    split; [done|]. split; [simpl in *; lia|]. by split.
Qed.

End refinement.

(** ** Rounding *)

Section rounding.

Lemma floor_bounds x :
  inject_Z (Qfloor x) <= x /\ x < inject_Z (Qfloor x) + 1.
Proof.
split; [apply Qfloor_le|].
pose proof (Qlt_floor x) as H. by rewrite inject_Z_plus in H.
Qed.

(** [rint] is within one half of its argument. *)
Lemma rint_bounds x :
  inject_Z (rint x) - (1 # 2) <= x /\ x <= inject_Z (rint x) + (1 # 2).
Proof.
destruct (floor_bounds x) as [H1 H2]. unfold rint.
destruct (Qcompare_spec (x - inject_Z (Qfloor x)) (1 # 2)) as [E|E|E].
- destruct (Z.even (Qfloor x)); rewrite ?inject_Z_plus;
    change (inject_Z 1) with 1; lra.
- lra.
- rewrite inject_Z_plus. change (inject_Z 1) with 1. lra.
Qed.

Lemma rint_proper x y : x == y -> rint x = rint y.
Proof.
intros E. unfold rint. rewrite (Qfloor_comp _ _ E).
by rewrite (Qcompare_comp _ _ (Qminus_comp _ _ E _ _ (Qeq_refl _)) _ _ (Qeq_refl _)).
Qed.

Lemma rint_mono x y : x <= y -> (rint x <= rint y)%Z.
Proof.
intros Hxy.
pose proof (Qfloor_resp_le _ _ Hxy) as Hf.
destruct (floor_bounds x) as [Hx1 Hx2]. destruct (floor_bounds y) as [Hy1 Hy2].
destruct (decide (Qfloor x = Qfloor y)) as [E|E].
- unfold rint. rewrite E in *.
  destruct (Qcompare_spec (x - inject_Z (Qfloor y)) (1 # 2));
    destruct (Qcompare_spec (y - inject_Z (Qfloor y)) (1 # 2));
    destruct (Z.even (Qfloor y)); try lia; lra.
- assert (rint x <= Qfloor x + 1)%Z as H1.
  { unfold rint. repeat case_match; lia. }
  assert (Qfloor y <= rint y)%Z as H2.
  { unfold rint. repeat case_match; lia. }
  lia.
Qed.

Lemma pow10_pos d : (0 <= d)%Z -> 0 < pow10 d.
Proof.
intros Hd. unfold pow10. change 0 with (inject_Z 0). rewrite <- Zlt_Qlt.
by apply Z.pow_pos_nonneg.
Qed.

Lemma np_round_proper x y d : x == y -> np_round x d = np_round y d.
Proof.
intros E. unfold np_round. destruct (0 <=? d)%Z.
- by rewrite (rint_proper (x * pow10 d) (y * pow10 d)) by by rewrite E.
- by rewrite (rint_proper (x / pow10 (- d)) (y / pow10 (- d))) by by rewrite E.
Qed.

(** Rounding keeps the order. *)
Lemma np_round_mono x y d : x <= y -> np_round x d <= np_round y d.
Proof.
intros Hxy. unfold np_round. destruct (Z.leb_spec 0 d) as [Hd|Hd].
- pose proof (pow10_pos d Hd) as HP.
  apply Qmult_le_compat_r; [|by apply Qlt_le_weak, Qinv_lt_0_compat].
  rewrite <- Zle_Qle. apply rint_mono.
  apply Qmult_le_compat_r; [done|by apply Qlt_le_weak].
- pose proof (pow10_pos (- d) ltac:(lia)) as HP.
  apply Qmult_le_compat_r; [|by apply Qlt_le_weak].
  rewrite <- Zle_Qle. apply rint_mono.
  apply Qmult_le_compat_r; [done|by apply Qlt_le_weak, Qinv_lt_0_compat].
Qed.

(** With [decimals = -2] the result is a multiple of 100 within 50 of the
    argument: the nearest hundred. *)
Lemma np_round_hundreds x :
  exists k : Z, np_round x (-2) = inject_Z k * 100
                /\ Qabs (np_round x (-2) - x) <= 50.
Proof.
exists (rint (x / 100)). split; [reflexivity|].
change (np_round x (-2)) with (inject_Z (rint (x / 100)) * 100).
destruct (rint_bounds (x / 100)) as [H1 H2].
assert (x == x / 100 * 100) as E by (field; discriminate).
apply Qabs_Qle_condition. split; lra.
Qed.

End rounding.

(** ** The daily totals *)

Section daily.

Lemma sum_fmap_ext {A} (f g : A -> Q) l :
  (forall x, x ∈ l -> f x == g x) -> sum (f <$> l) == sum (g <$> l).
Proof.
induction l as [|x l IH]; intros H; [reflexivity|].
cbn [fmap list_fmap]. rewrite !sum_cons.
rewrite (H x) by by left. rewrite IH; [reflexivity|].
intros y Hy. apply H. by right.
Qed.

Lemma sum_fmap_plus {A} (f g : A -> Q) l :
  sum ((fun x => f x + g x) <$> l) == sum (f <$> l) + sum (g <$> l).
Proof.
induction l as [|x l IH]; [reflexivity|].
cbn [fmap list_fmap]. rewrite !sum_cons, IH. ring.
Qed.

Lemma sum_fmap_zero {A} (l : list A) : sum ((fun _ => 0) <$> l) == 0.
Proof.
induction l as [|x l IH]; [reflexivity|].
cbn [fmap list_fmap]. rewrite sum_cons, IH. ring.
Qed.

(** The indicator of one key adds up to one over a list without
    duplicates that holds the key. *)
Lemma sum_indicator (d : Z) (v : Q) (bs : list Z) :
  NoDup bs -> d ∈ bs ->
  sum ((fun b => if decide (d = b) then v else 0) <$> bs) == v.
Proof.
induction bs as [|b bs IH]; intros Hnd Hd.
- by apply elem_of_nil in Hd.
- apply NoDup_cons in Hnd as [Hb Hnd].
  cbn [fmap list_fmap]. rewrite sum_cons.
  destruct (decide (d = b)) as [->|Hne].
  + rewrite (sum_fmap_ext _ (fun _ => 0)).
    * rewrite sum_fmap_zero. ring.
    * intros x Hx. destruct (decide (b = x)) as [->|]; [done|reflexivity].
  + apply elem_of_cons in Hd as [?|Hd]; [done|].
    rewrite IH by done. ring.
Qed.

(** The totals of the bins add up to the total of the column. *)
Lemma sum_bins (bs : list Z) :
  NoDup bs ->
  forall days vals,
    length days = length vals ->
    (forall d, d ∈ days -> d ∈ bs) ->
    sum ((fun b => sum (rows_where b days vals)) <$> bs) == sum vals.
Proof.
intros Hnd. induction days as [|d days IH]; intros vals Hlen Hin.
- destruct vals; [|done]. simpl. apply sum_fmap_zero.
- destruct vals as [|v vals]; [done|].
  rewrite (sum_fmap_ext _
             (fun b => (if decide (d = b) then v else 0)
                       + sum (rows_where b days vals))).
  + assert (length days = length vals) as Hlen' by (by injection Hlen).
    assert (forall x, x ∈ days -> x ∈ bs) as Hin'
        by (intros x Hx; apply Hin; by right).
    assert (d ∈ bs) as Hd by (apply Hin; by left).
    rewrite sum_fmap_plus, (sum_indicator d v bs Hnd Hd), (IH vals Hlen' Hin').
    by rewrite sum_cons.
  + intros b _. simpl. destruct (decide (d = b)).
    * by rewrite sum_cons.
    * ring.
Qed.

Lemma foldr_min_le d ds x : x ∈ d :: ds -> (foldr Z.min d ds <= x)%Z.
Proof.
induction ds as [|y ds IH]; intros Hx; simpl.
- apply list_elem_of_singleton in Hx as ->. lia.
- rewrite !elem_of_cons in Hx. destruct Hx as [->|[->|Hx]].
  + pose proof (IH ltac:(by left)). lia.
  + lia.
  + pose proof (IH ltac:(by right)). lia.
Qed.

Lemma foldr_max_ge d ds x : x ∈ d :: ds -> (x <= foldr Z.max d ds)%Z.
Proof.
induction ds as [|y ds IH]; intros Hx; simpl.
- apply list_elem_of_singleton in Hx as ->. lia.
- rewrite !elem_of_cons in Hx. destruct Hx as [->|[->|Hx]].
  + pose proof (IH ltac:(by left)). lia.
  + lia.
  + pose proof (IH ltac:(by right)). lia.
Qed.

Lemma sum_nonneg l : Forall (fun x => 0 <= x) l -> 0 <= sum l.
Proof.
induction 1 as [|x l Hx _ IH]; [by apply Qle_refl|].
rewrite sum_cons. lra.
Qed.

Lemma rows_where_Forall {A} (P : A -> Prop) (k : Z) keys col :
  Forall P col -> Forall P (rows_where k keys col).
Proof.
revert col. induction keys as [|k' keys IH]; intros col Hcol; [constructor|].
destruct col as [|x col]; [constructor|]. simpl.
apply Forall_cons in Hcol as [Hx Hcol].
destruct (decide (k' = k)); [constructor; [done|]|]; by apply IH.
Qed.

Lemma sum_fmap_nonneg {A} (f : A -> Q) l :
  (forall x, 0 <= f x) -> 0 <= sum (f <$> l).
Proof.
intros H. apply sum_nonneg. apply Forall_fmap, Forall_forall. intros x _. apply H.
Qed.

(** The mean of the daily totals of a table with at least one row. *)
Lemma mean_resample dates vals :
  dates <> [] ->
  exists m,
    mean (resample_B_sum dates vals) = Some m
    /\ (Forall (fun x => 0 <= x) vals -> 0 <= m)
    /\ (length dates = length vals ->
        m == sum vals / inject_Z (business_days_spanned dates)).
Proof.
intros Hne. unfold resample_B_sum, business_days_spanned.
destruct (Qfloor <$> dates) as [|d ds] eqn:Hdays.
- by destruct dates.
- set (first := foldr Z.min d ds). set (last := foldr Z.max d ds).
  assert (first <= d <= last)%Z as Hd.
  { split; [apply foldr_min_le|apply foldr_max_ge]; by left. }
  set (L := (fun b => sum (rows_where b (d :: ds) vals))
              <$> seqZ first (last - first + 1)).
  assert (length L = Z.to_nat (last - first + 1)) as HL
      by (subst L; by rewrite length_fmap, length_seqZ).
  assert (0 < inject_Z (Z.of_nat (length L))) as Hpos.
  { change 0 with (inject_Z 0). rewrite <- Zlt_Qlt. lia. }
  exists (sum L / inject_Z (Z.of_nat (length L))).
  split; [|split].
  + destruct L; [simpl in HL; lia|done].
  + intros Hvals. apply Qle_shift_div_l; [done|].
    rewrite Qmult_0_l. subst L. apply sum_fmap_nonneg.
    intros b. by apply sum_nonneg, rows_where_Forall.
  + intros Hlen.
    assert (sum L == sum vals) as ->.
    { subst L. apply sum_bins.
      - apply NoDup_seqZ.
      - by rewrite <- Hdays, length_fmap.
      - intros x Hx. apply elem_of_seqZ.
        pose proof (foldr_min_le d ds x Hx). pose proof (foldr_max_ge d ds x Hx).
        subst first last. lia. }
    rewrite HL, Z2Nat.id by lia. reflexivity.
Qed.

End daily.

(** * The claims *)

Section claims.

Lemma existsb_possible bt :
  existsb (String.eqb bt) POSSIBLE_BAR_TYPES = true -> bt ∈ POSSIBLE_BAR_TYPES.
Proof.
  intros H. apply existsb_exists in H as (x & Hx & E).
  apply String.eqb_eq in E as ->. by apply list_elem_of_In.
Qed.

Lemma run_sample_bar_bars ts bt thr r a :
  bt ∈ POSSIBLE_BAR_TYPES ->
  (run_sample_bar ts bt thr r a).1
  = inr (bars_of ts (assign_groups (resolved_threshold thr bt ts r a)
                       (cumsum (measure_column bt ts)))).
Proof.
  intros Hbt. unfold run_sample_bar.
  destruct (run_sample_bar_ok {| heap := [frame_of ts]; stdout := [] |}
              0%nat (frame_of ts) bt thr r a eq_refl Hbt) as (a' & t' & ->).
  done.
Qed.

Lemma run_sample_bar_stdout ts bt thr r a :
  bt ∈ POSSIBLE_BAR_TYPES ->
  stdout (run_sample_bar ts bt thr r a).2
  = match thr with
    | Auto => [resolved_threshold Auto bt ts r a]
    | Fixed _ => []
    end.
Proof.
  intros Hbt. unfold run_sample_bar.
  destruct (run_sample_bar_ok {| heap := [frame_of ts]; stdout := [] |}
              0%nat (frame_of ts) bt thr r a eq_refl Hbt) as (a' & t' & ->).
  by destruct thr.
Qed.

End claims.








(** C2, as stated: the five-row example does not give the groups
    [0,0,1,1,2] and three bars. *)
Lemma five_rows_three_bars_fails :
  ~ (assign_groups (Some 2) (cumsum (measure_column "tick" (ticks5 0 1 2 3 4)))
     = [Some 0; Some 0; Some 1; Some 1; Some 2]%Z
     /\ exists bars,
          (run_sample_bar (ticks5 0 1 2 3 4) "tick" (Fixed 2) (-2) (1 / 50)).1
          = inr bars
          /\ ohlc <$> bars
             = [(10, 11, 10, 11, 2, 2); (9, 12, 9, 12, 2, 2);
                (10, 10, 10, 10, 1, 1)]).
Proof.
  intros [Hg _]. vm_compute in Hg. discriminate.
Qed.

(** C2, amended: for the five rows with prices [10,11,9,12,10], volumes
    [1,1,1,1,1], bar type ['tick'] and fixed threshold 2, the group
    assignment is [0,0,1,1,NaN] and the sampler returns two bars: the
    first with open 10, high 11, low 10, close 11, 2 ticks, volume 2, the
    second with open 9, high 12, low 9, close 12, 2 ticks, volume 2; the
    fifth row is in no bar. *)
Theorem five_rows_two_bars (t0 t1 t2 t3 t4 : Q) (r : Z) (a : Q) :
  assign_groups (Some 2) (cumsum (measure_column "tick" (ticks5 t0 t1 t2 t3 t4)))
  = [Some 0; Some 0; Some 1; Some 1; None]%Z
  /\ (run_sample_bar (ticks5 t0 t1 t2 t3 t4) "tick" (Fixed 2) r a).1
     = inr [ {| bar_date_time := t1; open := 10; high := 11; low := 10;
                close := 11; bar_ticks := 2; bar_volume := 2;
                bar_dollar := 21 |};
             {| bar_date_time := t3; open := 9; high := 12; low := 9;
                close := 12; bar_ticks := 2; bar_volume := 2;
                bar_dollar := 21 |} ].
Proof. split; reflexivity. Qed.

(** C10: for tick bars with a fixed positive integer threshold [T] every bar
    of the output has exactly [T] ticks, and [n] rows give [n / T] bars:
    the rows left after the final crossing are in no bar and no bar is
    partial. *)
Theorem tick_bars_are_full (ts : list Tick) (T : Z) (r : Z) (a : Q) :
  (0 < T)%Z ->
  exists bars,
    (run_sample_bar ts "tick" (Fixed (inject_Z T)) r a).1 = inr bars
    /\ (forall b, b ∈ bars -> bar_ticks b == inject_Z T)
    /\ Z.of_nat (length bars) = (Z.of_nat (length ts) / T)%Z.
Proof.
  intros HT.
  assert ("tick" ∈ POSSIBLE_BAR_TYPES) as Hbt by apply list_elem_of_here.
  rewrite (run_sample_bar_bars _ _ _ _ _ Hbt). eexists. split; [done|].
  change (measure_column "tick" ts) with (replicate (length ts) 1).
  destruct (unit_blocks T HT 0 0%Z _ _
              (assign_groups_blocks (Some (inject_Z T))
                 (cumsum (replicate (length ts) 1)))
              (length ts) (date_time <$> ts) (price <$> ts) (volume <$> ts)
              (zip_with Qmult (price <$> ts) (volume <$> ts)) eq_refl)
    as [Hall Hcount].
  split; [|exact Hcount].
  intros b Hb. rewrite Forall_forall in Hall. by apply Hall.
Qed.

Lemma tick_bars_are_full_witness :
  (0 < 2)%Z
  /\ exists bars,
       (run_sample_bar (ticks5 0 1 2 3 4) "tick" (Fixed (inject_Z 2)) (-2) (1 / 50)).1
       = inr bars
       /\ (forall b, b ∈ bars -> bar_ticks b == inject_Z 2)
       /\ Z.of_nat (length bars) = (Z.of_nat (length (ticks5 0 1 2 3 4)) / 2)%Z.
Proof.
  assert (0 < 2)%Z as H by lia.
  split; [exact H|].
  exact (tick_bars_are_full (ticks5 0 1 2 3 4) 2 (-2) (1 / 50) H).
Defined.




(** C5, as stated: a threshold of 0 and an empty table are both accepted. *)
Lemma zero_threshold_and_empty_table_accepted :
  (~ exists e,
       (run_sample_bar [ {| date_time := 0; price := 10; volume := 1 |} ]
          "tick" (Fixed 0) (-2) (1 / 50)).1 = inl e)
  /\ (~ exists e, (run_sample_bar [] "tick" (Fixed 2) (-2) (1 / 50)).1 = inl e).
Proof.
  split; intros [e He]; vm_compute in He; discriminate.
Qed.

(** C5, amended: for every supported bar type a fixed threshold of any
    sign, 0 and negative values included, is accepted, and so is an empty
    table: [sample_bar] returns a table of bars without an error.  An
    empty table gives no bar, and with tick bars a threshold that is not
    positive gives one bar per row. *)
Theorem sample_bar_never_rejects (ts : list Tick) (bt : string) (th : Q)
    (r : Z) (a : Q) :
  bt ∈ POSSIBLE_BAR_TYPES ->
  exists bars,
    (run_sample_bar ts bt (Fixed th) r a).1 = inr bars
    /\ (ts = [] -> bars = [])
    /\ (th <= 0 -> bt = "tick"%string -> length bars = length ts).
Proof.
  intros Hbt. rewrite (run_sample_bar_bars _ _ _ _ _ Hbt).
  eexists. split; [reflexivity|]. split.
  - intros ->. unfold POSSIBLE_BAR_TYPES in Hbt. by list_cases Hbt.
  - intros Hth ->.
    apply (nonpositive_blocks th Hth 0 0%Z (cumsum (replicate (length ts) 1))).
    + apply assign_groups_blocks.
    + reflexivity.
Qed.

Lemma sample_bar_never_rejects_witness :
  "tick" ∈ POSSIBLE_BAR_TYPES
  /\ exists bars,
       (run_sample_bar (ticks5 0 1 2 3 4) "tick" (Fixed 0) (-2) (1 / 50)).1
       = inr bars
       /\ (ticks5 0 1 2 3 4 = [] -> bars = [])
       /\ (0 <= 0 -> "tick"%string = "tick"%string ->
           length bars = length (ticks5 0 1 2 3 4)).
Proof.
  assert ("tick" ∈ POSSIBLE_BAR_TYPES) as H by apply list_elem_of_here.
  split; [exact H|].
  exact (sample_bar_never_rejects (ticks5 0 1 2 3 4) "tick" 0 (-2) (1 / 50) H).
Defined.

(** C9: a call of [sample_bar] leaves every frame of the caller, the input
    table among them, as it was: the columns it derives and the rebasing
    of the loop go to the two copies it makes.  It prints nothing with a
    fixed threshold and, when it returns in automatic mode, prints one
    value, the resolved threshold. *)
Theorem sample_bar_leaves_input_unchanged (w : World) (l : loc) (bt : string)
    (thr : threshold) (r : Z) (a : Q) :
  let res := (sample_bar l bt thr r a w).1 in
  let w' := (sample_bar l bt thr r a w).2 in
  heap w' !! l = heap w !! l
  /\ (forall l' df, heap w !! l' = Some df -> heap w' !! l' = Some df)
  /\ stdout w'
     = stdout w ++ match res, thr, heap w !! l with
                   | inr _, Auto, Some d =>
                       [resolved_threshold Auto bt (rows d) r a]
                   | _, _, _ => []
                   end.
Proof.
  intros res w'. subst res w'.
  destruct (existsb (String.eqb bt) POSSIBLE_BAR_TYPES) eqn:Hbt.
  - pose proof (existsb_possible _ Hbt) as Hin.
    destruct (heap w !! l) as [d|] eqn:Hd.
    + destruct (run_sample_bar_ok w l d bt thr r a Hd Hin) as (a' & t' & ->).
      cbn [fst snd heap stdout].
      split; [rewrite lookup_app_l; [done|by eapply lookup_lt_Some]|].
      split.
      * intros l' df Hl'. rewrite lookup_app_l; [done|by eapply lookup_lt_Some].
      * by destruct thr.
    + assert (copy l w = (inl DanglingReference, w)) as Hcopy.
      { unfold copy, mbind, M_bind, load. by rewrite Hd. }
      unfold sample_bar. rewrite Hbt. cbn [negb].
      rewrite (run_raise _ _ _ _ _ Hcopy). simpl. rewrite Hd, app_nil_r. done.
  - unfold sample_bar. rewrite Hbt. simpl. rewrite app_nil_r. done.
Qed.




(** C7, as stated: with a daily total of 1000 and rounding to hundreds the
    ratios 1/50 and 3/100 both resolve to 0; the larger ratio does not
    give a larger threshold. *)
Lemma auto_threshold_not_strictly_increasing :
  1 / 50 < 3 / 100
  /\ ~ (forall t1 t2,
          (_get_auto_threshold 0%nat "volume" (-2) (1 / 50) one_day_world).1
          = inr (Some t1) ->
          (_get_auto_threshold 0%nat "volume" (-2) (3 / 100) one_day_world).1
          = inr (Some t2) ->
          t1 < t2).
Proof.
  split; [reflexivity|].
  intros H. specialize (H 0 0 eq_refl eq_refl). by apply Qlt_irrefl in H.
Qed.

(** C7, amended: for the same input table with non-negative measure values,
    a larger [auto_ratio] never gives a smaller resolved threshold (it may
    give the same one, because of the rounding), and doubling [auto_ratio]
    gives exactly double the value before rounding. *)
Theorem auto_threshold_monotone (w : World) (df : loc) (d : DataFrame)
    (tgt : string) (vals : list Q) (r : Z) (a1 a2 : Q) :
  heap w !! df = Some d ->
  get_col tgt d = Some vals ->
  rows d <> [] ->
  Forall (fun x => 0 <= x) vals ->
  a1 <= a2 ->
  exists t1 t2 p1 p2,
    (_get_auto_threshold df tgt r a1 w).1 = inr (Some t1)
    /\ (_get_auto_threshold df tgt r a2 w).1 = inr (Some t2)
    /\ t1 <= t2
    /\ pre_rounding_threshold (date_time <$> rows d) vals a1 = Some p1
    /\ pre_rounding_threshold (date_time <$> rows d) vals (2 * a1) = Some p2
    /\ p2 == 2 * p1.
Proof.
  intros Hd Hvals Hne Hpos Ha.
  destruct (mean_resample (date_time <$> rows d) vals)
    as (m & Hm & Hm0 & _); [by destruct (rows d)|].
  specialize (Hm0 Hpos).
  exists (np_round (m * a1) r), (np_round (m * a2) r), (m * a1), (m * (2 * a1)).
  rewrite !(run_get_auto_threshold _ _ _ _ _ _ _ Hd Hvals).
  unfold pre_rounding_threshold. rewrite Hm. simpl.
  split; [done|]. split; [done|]. split.
  - apply np_round_mono. rewrite !(Qmult_comm m).
    by apply Qmult_le_compat_r.
  - split; [done|]. split; [done|]. ring.
Qed.

Lemma auto_threshold_monotone_witness :
  heap one_day_world !! 0%nat
  = Some (frame_of [ {| date_time := 0; price := 1; volume := 1000 |} ])
  /\ exists t1 t2 p1 p2,
       (_get_auto_threshold 0%nat "volume" (-2) (1 / 50) one_day_world).1
       = inr (Some t1)
       /\ (_get_auto_threshold 0%nat "volume" (-2) (3 / 100) one_day_world).1
          = inr (Some t2)
       /\ t1 <= t2
       /\ pre_rounding_threshold [0] [1000] (1 / 50) = Some p1
       /\ pre_rounding_threshold [0] [1000] (2 * (1 / 50)) = Some p2
       /\ p2 == 2 * p1.
Proof.
  split; [reflexivity|].
  apply (auto_threshold_monotone one_day_world 0%nat
           (frame_of [ {| date_time := 0; price := 1; volume := 1000 |} ])
           "volume" [1000] (-2) (1 / 50) (3 / 100)).
  - reflexivity.
  - reflexivity.
  - discriminate.
  - repeat constructor; discriminate.
  - vm_compute. discriminate.
Defined.

(** * Further properties of the samplers *)

(** ** Runs of rows *)

Section runs.
Context (th : option Q).

Lemma run_lengths_pos fs : forall p, Forall (fun s => (0 < s)%nat) (run_lengths p fs).
Proof.
induction fs as [|[] fs IH]; intros p; simpl; [constructor| |apply IH].
constructor; [lia|apply IH].
Qed.

Lemma run_lengths_sum fs : forall p,
  (sum_list (run_lengths p fs) <= p + length fs)%nat.
Proof.
induction fs as [|[] fs IH]; intros p; simpl; [lia| |].
- specialize (IH 0%nat). lia.
- specialize (IH (S p)). lia.
Qed.

Lemma labels_run_lengths fs : forall p g,
  labels g (replicate p false ++ fs)
  = run_labels g (run_lengths p fs)
    ++ replicate (p + length fs - sum_list (run_lengths p fs)) None.
Proof.
induction fs as [|[] fs IH]; intros p g.
- simpl. rewrite app_nil_r, labels_pending. f_equal. lia.
- rewrite labels_close. cbn [run_lengths run_labels sum_list sum_list_with length].
  change fs with (replicate 0 false ++ fs) at 1.
  rewrite (IH 0%nat (g + 1)%Z). cbn [replicate app].
  rewrite <- app_assoc.
  replace (p + 1)%nat with (S p) by lia.
  change (replicate (S p) (Some g)) with (Some g :: replicate p (Some g)).
  cbn [app]. do 4 f_equal. unfold id.
  pose proof (run_lengths_sum fs 0). lia.
- cbn [run_lengths length].
  replace (replicate p false ++ false :: fs)
    with (replicate (S p) false ++ fs)
    by (rewrite replicate_S_end, <- app_assoc; done).
  rewrite IH. f_equal. f_equal. lia.
Qed.

Lemma run_labels_ge sizes : forall g r x,
  Some x ∈ run_labels g sizes ++ replicate r None -> (g <= x)%Z.
Proof.
induction sizes as [|s ss IH]; intros g r x Hx; simpl in Hx.
- apply elem_of_replicate in Hx as [? _]. done.
- rewrite <- app_assoc in Hx. apply elem_of_app in Hx as [Hx|Hx].
  + apply elem_of_replicate in Hx as [Hx _]. injection Hx as ->. lia.
  + apply IH in Hx. lia.
Qed.

Lemma aggregate_runs sizes : forall g r dt p t v d,
  Forall (fun s => (0 < s)%nat) sizes ->
  aggregate dt p t v d (run_labels g sizes ++ replicate r None)
  = bars_of_runs sizes dt p t v d.
Proof.
induction sizes as [|s ss IH]; intros g r dt p t v d Hpos; simpl.
- apply aggregate_nan.
- apply Forall_cons in Hpos as [Hs Hpos].
  destruct s as [|m]; [lia|].
  rewrite <- app_assoc, aggregate_run.
  + f_equal. by apply IH.
  + intros x Hx. apply run_labels_ge in Hx. lia.
Qed.

Lemma concat_chunks {A} sizes : forall l : list A,
  concat (chunks sizes l) = take (sum_list sizes) l.
Proof.
induction sizes as [|s ss IH]; intros l; simpl; [done|].
by rewrite IH, take_take_drop.
Qed.

Lemma chunks_fmap {A B} (f : A -> B) sizes : forall l : list A,
  chunks sizes (f <$> l) = (fun c : list A => f <$> c) <$> chunks sizes l.
Proof.
induction sizes as [|s ss IH]; intros l; simpl; [done|].
by rewrite <- fmap_take, <- fmap_drop, IH.
Qed.

Lemma chunks_length {A} sizes : forall l : list A,
  (sum_list sizes <= length l)%nat -> length <$> chunks sizes l = sizes.
Proof.
induction sizes as [|s ss IH]; intros l Hl; simpl in *; [done|].
rewrite length_take, IH by (rewrite length_drop; lia). f_equal. lia.
Qed.

Lemma chunks_app_le {A} sizes : forall l k : list A,
  (sum_list sizes <= length l)%nat -> chunks sizes (l ++ k) = chunks sizes l.
Proof.
induction sizes as [|s ss IH]; intros l k Hl; simpl in *; [done|].
rewrite take_app_le by lia. f_equal.
rewrite drop_app_le by lia. apply IH. rewrite length_drop. lia.
Qed.

Lemma chunks_app {A} s1 s2 (l : list A) :
  chunks (s1 ++ s2) l = chunks s1 l ++ chunks s2 (drop (sum_list s1) l).
Proof.
revert l. induction s1 as [|s ss IH]; intros l; simpl; [by rewrite drop_0|].
by rewrite IH, drop_drop.
Qed.

(** The bars of runs in the columns of a table are the bars of the runs
    of its rows. *)
Lemma bars_of_runs_rows sizes : forall ts : list Tick,
  bars_of_runs sizes (date_time <$> ts) (price <$> ts)
    (replicate (length ts) 1) (volume <$> ts)
    (zip_with Qmult (price <$> ts) (volume <$> ts))
  = bar_of_rows <$> chunks sizes ts.
Proof.
induction sizes as [|s ss IH]; intros ts; simpl; [done|].
f_equal.
- unfold bar_of_rows.
  by rewrite !fmap_take, zip_with_take, take_replicate, length_take.
- rewrite <- IH, !fmap_drop, zip_with_drop, drop_replicate, length_drop. done.
Qed.

Lemma sum_app l1 l2 : sum (l1 ++ l2) == sum l1 + sum l2.
Proof.
induction l1 as [|x l1 IH]; simpl.
- change (sum []) with 0. ring.
- rewrite !sum_cons, IH. ring.
Qed.

(** The sampler cuts the measure column greedily: each run reaches the
    threshold with its last row and not before, and what is left after the
    last run never reaches it. *)
Lemma greedy_runs vals : forall b acc pend,
  acc == b + sum pend ->
  stays_below th pend ->
  let sizes := run_lengths (length pend) (closes th b (cumsum_from acc vals)) in
  Forall (closes_at_end th) (chunks sizes (pend ++ vals))
  /\ stays_below th (drop (sum_list sizes) (pend ++ vals)).
Proof.
induction vals as [|x vals IH]; intros b acc pend Hacc Hpend; simpl.
- split; [constructor|]. by rewrite drop_0, app_nil_r.
- assert (acc + x - b == sum (pend ++ [x])) as Hsum
      by (rewrite sum_app, sum_cons, Hacc; change (sum []) with 0; ring).
  rewrite (ge_th_proper th _ _ Hsum).
  destruct (ge_th (sum (pend ++ [x])) th) eqn:Hge; simpl.
  + destruct (IH (acc + x) (acc + x) []) as [H1 H2].
    { change (sum []) with 0. ring. }
    { intros k Hk. simpl in Hk. lia. }
    simpl in H1, H2.
    replace (S (length pend)) with (length (pend ++ [x]))
      by (rewrite length_app; simpl; lia).
    rewrite (cons_middle x pend vals), app_assoc.
    rewrite take_app_length, drop_app_length.
    split.
    * constructor; [|done]. split; [done|].
      intros k Hk. rewrite length_app in Hk. simpl in Hk.
      rewrite take_app_le by lia. apply Hpend. lia.
    * set (N := sum_list _) in *.
      replace (S (length pend + N)) with (length (pend ++ [x]) + N)%nat
        by (rewrite length_app; simpl; lia).
      rewrite <- drop_drop, drop_app_length. done.
  + destruct (IH b (acc + x) (pend ++ [x])) as [H1 H2].
    { rewrite sum_app, sum_cons, Hacc. change (sum []) with 0. ring. }
    { intros k Hk. rewrite length_app in Hk. simpl in Hk.
      destruct (decide (k <= length pend)%nat).
      - rewrite take_app_le by lia. apply Hpend. lia.
      - rewrite take_ge by (rewrite length_app; simpl; lia). done. }
    rewrite length_app in H1, H2. simpl in H1, H2.
    rewrite Nat.add_1_r, <- app_assoc in H1, H2. done.
Qed.

Lemma measure_column_rows bt ts :
  measure_column bt ts = row_measure bt <$> ts.
Proof.
unfold measure_column, row_measure.
destruct (String.eqb bt "tick"); [|destruct (String.eqb bt "volume")].
- induction ts as [|t ts IH]; [done|]. simpl in *. by f_equal.
- done.
- induction ts as [|t ts IH]; [done|]. simpl in *. by f_equal.
Qed.

(** The bars of a labelled table are the bars of its runs of rows. *)
Lemma bars_of_segments bt ts :
  bars_of ts (assign_groups th (cumsum (measure_column bt ts)))
  = bar_of_rows <$> segments bt th ts.
Proof.
unfold bars_of, segments, bar_sizes.
rewrite assign_groups_labels.
change (closes th 0 (cumsum (measure_column bt ts)))
  with (replicate 0 false ++ closes th 0 (cumsum (measure_column bt ts))) at 1.
rewrite labels_run_lengths, aggregate_runs by apply run_lengths_pos.
apply bars_of_runs_rows.
Qed.

Lemma bar_sizes_sum bt ts : (sum_list (bar_sizes bt th ts) <= length ts)%nat.
Proof.
unfold bar_sizes.
pose proof (run_lengths_sum (closes th 0 (cumsum (measure_column bt ts))) 0) as H.
assert (forall b l, length (closes th b l) = length l) as Hlen.
{ intros b l. revert b. induction l as [|c l IH]; intros b; simpl; [done|].
  destruct (ge_th (c - b) th); simpl; by rewrite IH. }
rewrite Hlen, cumsum_length, measure_column_length in H. lia.
Qed.

(** The runs of rows of a table: consecutive, none empty, each reaching
    the threshold with its last row and not before; the rows after the
    last run never reach it. *)
Lemma segments_spec bt ts :
  let segs := segments bt th ts in
  ts = concat segs ++ drop (sum_list (bar_sizes bt th ts)) ts
  /\ Forall (fun s => s <> []) segs
  /\ Forall (fun s => closes_at_end th (row_measure bt <$> s)) segs
  /\ stays_below th
       (row_measure bt <$> drop (sum_list (bar_sizes bt th ts)) ts).
Proof.
intros segs. subst segs. unfold segments.
pose proof (bar_sizes_sum bt ts) as Hsum.
split; [by rewrite concat_chunks, take_drop|]. split.
- pose proof (chunks_length (bar_sizes bt th ts) ts Hsum) as Hl.
  pose proof (run_lengths_pos (closes th 0 (cumsum (measure_column bt ts))) 0)
    as Hpos. fold (bar_sizes bt th ts) in Hpos.
  rewrite <- Hl in Hpos. rewrite Forall_fmap in Hpos.
  eapply Forall_impl; [exact Hpos|]. intros s Hs ->. simpl in Hs. lia.
- destruct (greedy_runs (measure_column bt ts) 0 0 []) as [H1 H2].
  { change (sum []) with 0. ring. }
  { intros k Hk. simpl in Hk. lia. }
  simpl in H1, H2. fold (cumsum (measure_column bt ts)) in H1, H2.
  fold (bar_sizes bt th ts) in H1, H2.
  rewrite measure_column_rows in H1, H2.
  rewrite chunks_fmap in H1. rewrite Forall_fmap in H1.
  rewrite <- fmap_drop in H2. done.
Qed.

End runs.

Section sampler_runs.

Lemma run_fixed_segments ts bt th r a :
  bt ∈ POSSIBLE_BAR_TYPES ->
  (run_sample_bar ts bt (Fixed th) r a).1
  = inr (bar_of_rows <$> segments bt (Some th) ts).
Proof.
intros Hbt. rewrite (run_sample_bar_bars _ _ _ _ _ Hbt).
cbn [resolved_threshold]. by rewrite bars_of_segments.
Qed.

Lemma closes_at_end_measure bt th s :
  closes_at_end (Some th) (row_measure bt <$> s) ->
  th <= measure bt s
  /\ forall k, (0 < k < length s)%nat -> measure bt (take k s) < th.
Proof.
intros [H1 H2]. split; [by apply ge_th_true|].
intros k Hk. unfold measure. rewrite fmap_take. apply ge_th_false, H2.
by rewrite length_fmap.
Qed.

Lemma stays_below_measure bt th s :
  stays_below (Some th) (row_measure bt <$> s) ->
  forall k, (0 < k <= length s)%nat -> measure bt (take k s) < th.
Proof.
intros H k Hk. unfold measure. rewrite fmap_take. apply ge_th_false, H.
by rewrite length_fmap.
Qed.

Lemma bar_measure_rows bt s :
  bt ∈ POSSIBLE_BAR_TYPES -> bar_measure bt (bar_of_rows s) = measure bt s.
Proof.
intros Hbt. unfold measure. rewrite <- measure_column_rows.
unfold POSSIBLE_BAR_TYPES in Hbt. by list_cases Hbt.
Qed.

Lemma sum_concat ls : sum (sum <$> ls) == sum (concat ls).
Proof.
induction ls as [|l ls IH]; [reflexivity|].
cbn [fmap list_fmap concat]. by rewrite sum_cons, sum_app, IH.
Qed.

Lemma sum_bar_measure c sizes : forall ts,
  c ∈ POSSIBLE_BAR_TYPES ->
  sum (bar_measure c <$> (bar_of_rows <$> chunks sizes ts))
  == measure c (take (sum_list sizes) ts).
Proof.
induction sizes as [|s ss IH]; intros ts Hc; [reflexivity|].
cbn [chunks fmap list_fmap sum_list sum_list_with].
rewrite sum_cons, bar_measure_rows by done.
unfold id. rewrite <- take_take_drop, (IH (drop s ts) Hc).
unfold measure. rewrite fmap_app, sum_app. reflexivity.
Qed.

End sampler_runs.







(** ** Open, high, low, close and the time stamps of the bars *)

Section ohlc.

Lemma fold_min_le l : forall x,
  fold_left Qmin l x <= x /\ forall y, y ∈ l -> fold_left Qmin l x <= y.
Proof.
induction l as [|z l IH]; intros x; simpl.
- split; [apply Qle_refl|]. intros y Hy. by apply elem_of_nil in Hy.
- destruct (IH (Qmin x z)) as [H1 H2]. split.
  + eapply Qle_trans; [exact H1|apply Q.le_min_l].
  + intros y Hy. apply elem_of_cons in Hy as [->|Hy]; [|by apply H2].
    eapply Qle_trans; [exact H1|apply Q.le_min_r].
Qed.

Lemma fold_max_ge l : forall x,
  x <= fold_left Qmax l x /\ forall y, y ∈ l -> y <= fold_left Qmax l x.
Proof.
induction l as [|z l IH]; intros x; simpl.
- split; [apply Qle_refl|]. intros y Hy. by apply elem_of_nil in Hy.
- destruct (IH (Qmax x z)) as [H1 H2]. split.
  + eapply Qle_trans; [apply Q.le_max_l|exact H1].
  + intros y Hy. apply elem_of_cons in Hy as [->|Hy]; [|by apply H2].
    eapply Qle_trans; [apply Q.le_max_r|exact H1].
Qed.

Lemma agg_min_le l y : y ∈ l -> agg_min l <= y.
Proof.
destruct l as [|x l]; intros Hy; [by apply elem_of_nil in Hy|]. simpl.
destruct (fold_min_le l x) as [H1 H2].
apply elem_of_cons in Hy as [->|Hy]; auto.
Qed.

Lemma agg_max_ge l y : y ∈ l -> y <= agg_max l.
Proof.
destruct l as [|x l]; intros Hy; [by apply elem_of_nil in Hy|]. simpl.
destruct (fold_max_ge l x) as [H1 H2].
apply elem_of_cons in Hy as [->|Hy]; auto.
Qed.

Lemma agg_first_elem l : l <> [] -> agg_first l ∈ l.
Proof. destruct l; [done|]. intros _. simpl. by left. Qed.

Lemma agg_last_elem l : l <> [] -> agg_last l ∈ l.
Proof.
intros Hl. unfold agg_last.
destruct (last l) as [x|] eqn:E; [by apply last_Some_elem_of in E|].
by apply last_None in E.
Qed.

(** In a bar the open and the close lie between the low and the high. *)
Lemma make_bar_ohlc dt p t v d :
  let b := make_bar dt p t v d in
  low b <= open b /\ open b <= high b /\ low b <= close b /\ close b <= high b.
Proof.
simpl. destruct (decide (p = [])) as [->|Hp].
- repeat split; apply Qle_refl.
- pose proof (agg_first_elem p Hp). pose proof (agg_last_elem p Hp).
  repeat split; (by apply agg_min_le) || (by apply agg_max_ge).
Qed.

Lemma bar_of_rows_date s x :
  last s = Some x -> bar_date_time (bar_of_rows s) = date_time x.
Proof.
intros Hx. apply last_Some in Hx as [s' ->].
unfold bar_of_rows, make_bar, agg_last. cbn [bar_date_time].
rewrite fmap_app. cbn [fmap list_fmap]. by rewrite last_snoc.
Qed.

(** The time stamps of the bars of consecutive runs of a table in time
    order are in time order, and each is the time stamp of a row. *)
Lemma chunks_dates_sorted sizes : forall ts,
  Forall (fun s => (0 < s)%nat) sizes ->
  (sum_list sizes <= length ts)%nat ->
  StronglySorted (fun x y => date_time x <= date_time y) ts ->
  StronglySorted Qle (bar_date_time <$> (bar_of_rows <$> chunks sizes ts))
  /\ Forall (fun b => exists x, x ∈ ts /\ bar_date_time b = date_time x)
       (bar_of_rows <$> chunks sizes ts).
Proof.
induction sizes as [|s ss IH]; intros ts Hpos Hsum Hsorted.
- split; constructor.
- apply Forall_cons in Hpos as [Hs Hpos]. simpl in Hsum.
  rewrite <- (take_drop s ts) in Hsorted.
  apply StronglySorted_app in Hsorted as (Hcross & _ & Hdrop).
  destruct (IH (drop s ts) Hpos) as [IH1 IH2];
    [rewrite length_drop; lia|done|].
  destruct (last (take s ts)) as [x|] eqn:Hlast.
  2: { apply last_None in Hlast. apply (f_equal length) in Hlast.
       rewrite length_take in Hlast. simpl in Hlast. lia. }
  pose proof (bar_of_rows_date _ _ Hlast) as Hdate.
  pose proof (last_Some_elem_of _ _ Hlast) as Hx.
  cbn [chunks fmap list_fmap]. split.
  + constructor; [exact IH1|].
    rewrite Forall_fmap. eapply Forall_impl; [exact IH2|].
    intros b (y & Hy & Hb). unfold compose. rewrite Hdate, Hb.
    by apply Hcross.
  + constructor.
    * exists x. split; [|done]. rewrite <- (take_drop s ts).
      apply elem_of_app. by left.
    * eapply Forall_impl; [exact IH2|].
      intros b (y & Hy & Hb). exists y. split; [|done].
      rewrite <- (take_drop s ts). apply elem_of_app. by right.
Qed.

End ohlc.

(** X4: in every bar of the output the open and the close lie between the
    low and the high, in automatic mode as with a fixed threshold. *)
Theorem bars_are_ohlc_consistent (ts : list Tick) (bt : string)
    (thr : threshold) (r : Z) (a : Q) :
  bt ∈ POSSIBLE_BAR_TYPES ->
  exists bars,
    (run_sample_bar ts bt thr r a).1 = inr bars
    /\ forall b, b ∈ bars ->
         low b <= open b /\ open b <= high b
         /\ low b <= close b /\ close b <= high b.
Proof.
intros Hbt. rewrite (run_sample_bar_bars _ _ _ _ _ Hbt).
eexists. split; [reflexivity|].
intros b Hb. unfold bars_of, aggregate in Hb.
apply list_elem_of_fmap in Hb as (k & -> & _). apply make_bar_ohlc.
Qed.

Lemma bars_are_ohlc_consistent_witness :
  "tick" ∈ POSSIBLE_BAR_TYPES
  /\ exists bars,
       (run_sample_bar (ticks5 0 1 2 3 4) "tick" Auto 0 (1 / 2)).1 = inr bars
       /\ forall b, b ∈ bars ->
            low b <= open b /\ open b <= high b
            /\ low b <= close b /\ close b <= high b.
Proof.
assert ("tick" ∈ POSSIBLE_BAR_TYPES) as H by apply list_elem_of_here.
split; [exact H|].
exact (bars_are_ohlc_consistent (ticks5 0 1 2 3 4) "tick" Auto 0 (1 / 2) H).
Defined.

(** X5: when the rows of the table are in time order the bars are in time
    order too, and the time stamp of each bar is the time stamp of a row
    of the table (the last row of the bar). *)
Theorem bars_are_in_time_order (ts : list Tick) (bt : string) (th : Q)
    (r : Z) (a : Q) :
  bt ∈ POSSIBLE_BAR_TYPES ->
  StronglySorted (fun x y => date_time x <= date_time y) ts ->
  exists bars,
    (run_sample_bar ts bt (Fixed th) r a).1 = inr bars
    /\ StronglySorted Qle (bar_date_time <$> bars)
    /\ forall b, b ∈ bars -> exists x, x ∈ ts /\ bar_date_time b = date_time x.
Proof.
intros Hbt Hsorted. rewrite (run_fixed_segments _ _ _ _ _ Hbt).
eexists. split; [reflexivity|]. unfold segments.
destruct (chunks_dates_sorted (bar_sizes bt (Some th) ts) ts) as [H1 H2].
- apply run_lengths_pos.
- apply bar_sizes_sum.
- done.
- split; [done|]. by apply Forall_forall.
Qed.

Lemma bars_are_in_time_order_witness :
  "tick" ∈ POSSIBLE_BAR_TYPES
  /\ StronglySorted (fun x y => date_time x <= date_time y) (ticks5 0 1 2 3 4)
  /\ exists bars,
       (run_sample_bar (ticks5 0 1 2 3 4) "tick" (Fixed 2) (-2) (1 / 50)).1
       = inr bars
       /\ StronglySorted Qle (bar_date_time <$> bars)
       /\ forall b, b ∈ bars ->
            exists x, x ∈ ticks5 0 1 2 3 4 /\ bar_date_time b = date_time x.
Proof.
assert ("tick" ∈ POSSIBLE_BAR_TYPES) as H1 by apply list_elem_of_here.
assert (StronglySorted (fun x y => date_time x <= date_time y)
          (ticks5 0 1 2 3 4)) as H2.
{ repeat (constructor; [|repeat (constructor; [vm_compute; discriminate|])]).
  all: constructor. }
split; [exact H1|]. split; [exact H2|].
exact (bars_are_in_time_order (ticks5 0 1 2 3 4) "tick" 2 (-2) (1 / 50) H1 H2).
Defined.

(** ** Rows added at the end of a table *)

Section append.
Context (th : option Q).

Lemma cumsum_from_app l1 l2 : forall acc,
  exists acc', cumsum_from acc (l1 ++ l2)
               = cumsum_from acc l1 ++ cumsum_from acc' l2.
Proof.
induction l1 as [|x l1 IH]; intros acc; simpl; [by exists acc|].
destruct (IH (acc + x)) as [acc' ->]. by exists acc'.
Qed.

Lemma closes_app l1 l2 : forall b,
  exists b', closes th b (l1 ++ l2) = closes th b l1 ++ closes th b' l2.
Proof.
induction l1 as [|c l1 IH]; intros b; simpl; [by exists b|].
destruct (ge_th (c - b) th).
- destruct (IH c) as [b' ->]. by exists b'.
- destruct (IH b) as [b' ->]. by exists b'.
Qed.

Lemma run_lengths_app f1 f2 : forall p,
  exists p', run_lengths p (f1 ++ f2) = run_lengths p f1 ++ run_lengths p' f2.
Proof.
induction f1 as [|[] f1 IH]; intros p; simpl; [by exists p| |].
- destruct (IH 0%nat) as [p' ->]. by exists p'.
- destruct (IH (S p)) as [p' ->]. by exists p'.
Qed.

(** The runs of a table are runs of the table with rows added at its end. *)
Lemma segments_app bt ts1 ts2 :
  exists more, segments bt th (ts1 ++ ts2) = segments bt th ts1 ++ more.
Proof.
unfold segments.
assert (exists extra, bar_sizes bt th (ts1 ++ ts2)
                      = bar_sizes bt th ts1 ++ extra) as [extra ->].
{ unfold bar_sizes, cumsum.
  rewrite !measure_column_rows, fmap_app.
  destruct (cumsum_from_app (row_measure bt <$> ts1) (row_measure bt <$> ts2) 0)
    as [acc' ->].
  destruct (closes_app (cumsum_from 0 (row_measure bt <$> ts1))
              (cumsum_from acc' (row_measure bt <$> ts2)) 0) as [b' ->].
  destruct (run_lengths_app
              (closes th 0 (cumsum_from 0 (row_measure bt <$> ts1)))
              (closes th b' (cumsum_from acc' (row_measure bt <$> ts2))) 0)
    as [p' ->].
  eauto. }
rewrite chunks_app. eexists. f_equal.
apply chunks_app_le. apply bar_sizes_sum.
Qed.

End append.

(** X6: with a fixed threshold, rows added at the end of a table leave the
    bars of the table as they are: the bars of the longer table start
    with the bars of the table. *)
Theorem bars_do_not_depend_on_later_rows (ts1 ts2 : list Tick) (bt : string)
    (th : Q) (r : Z) (a : Q) :
  bt ∈ POSSIBLE_BAR_TYPES ->
  exists bars more,
    (run_sample_bar ts1 bt (Fixed th) r a).1 = inr bars
    /\ (run_sample_bar (ts1 ++ ts2) bt (Fixed th) r a).1 = inr (bars ++ more).
Proof.
intros Hbt. rewrite !(run_fixed_segments _ _ _ _ _ Hbt).
destruct (segments_app (Some th) bt ts1 ts2) as [more ->].
eexists _, (bar_of_rows <$> more). split; [reflexivity|].
by rewrite fmap_app.
Qed.

Lemma bars_do_not_depend_on_later_rows_witness :
  "tick" ∈ POSSIBLE_BAR_TYPES
  /\ exists bars more,
       (run_sample_bar (ticks5 0 1 2 3 4) "tick" (Fixed 2) (-2) (1 / 50)).1
       = inr bars
       /\ (run_sample_bar (ticks5 0 1 2 3 4 ++ ticks5 5 6 7 8 9) "tick"
             (Fixed 2) (-2) (1 / 50)).1 = inr (bars ++ more).
Proof.
assert ("tick" ∈ POSSIBLE_BAR_TYPES) as H by apply list_elem_of_here.
split; [exact H|].
exact (bars_do_not_depend_on_later_rows (ticks5 0 1 2 3 4) (ticks5 5 6 7 8 9)
         "tick" 2 (-2) (1 / 50) H).
Defined.

(** X7: on a valid table [sample_bar] fails exactly when the bar type is
    none of ['tick'], ['volume'], ['dollar']; it then raises the
    assertion error before it copies the table or prints anything. *)
Theorem sample_bar_rejects_other_bar_types (w : World) (l : loc)
    (d : DataFrame) (bt : string) (thr : threshold) (r : Z) (a : Q) :
  heap w !! l = Some d ->
  (bt ∉ POSSIBLE_BAR_TYPES
   <-> sample_bar l bt thr r a w = (inl AssertionError, w))
  /\ (bt ∈ POSSIBLE_BAR_TYPES
      <-> exists bars w', sample_bar l bt thr r a w = (inr bars, w')).
Proof.
intros Hd.
assert (bt ∈ POSSIBLE_BAR_TYPES ->
        exists bars w', sample_bar l bt thr r a w = (inr bars, w')) as Hok.
{ intros Hbt.
  destruct (run_sample_bar_ok w l d bt thr r a Hd Hbt) as (a' & t' & E).
  eauto. }
assert (bt ∉ POSSIBLE_BAR_TYPES ->
        sample_bar l bt thr r a w = (inl AssertionError, w)) as Hko.
{ intros Hbt. unfold sample_bar.
  destruct (existsb (String.eqb bt) POSSIBLE_BAR_TYPES) eqn:E; [|done].
  by apply existsb_possible in E. }
split; split; auto.
- intros E Hbt. destruct (Hok Hbt) as (bars & w' & E'). congruence.
- intros (bars & w' & E).
  destruct (decide (bt ∈ POSSIBLE_BAR_TYPES)) as [|Hn]; [done|].
  rewrite (Hko Hn) in E. discriminate.
Qed.

Lemma sample_bar_rejects_other_bar_types_witness :
  heap one_day_world !! 0%nat
  = Some (frame_of [ {| date_time := 0; price := 1; volume := 1000 |} ])
  /\ ("time" ∉ POSSIBLE_BAR_TYPES
      <-> sample_bar 0%nat "time" Auto (-2) (1 / 50) one_day_world
          = (inl AssertionError, one_day_world))
  /\ ("time" ∈ POSSIBLE_BAR_TYPES
      <-> exists bars w',
            sample_bar 0%nat "time" Auto (-2) (1 / 50) one_day_world
            = (inr bars, w')).
Proof.
assert (heap one_day_world !! 0%nat
        = Some (frame_of [ {| date_time := 0; price := 1; volume := 1000 |} ]))
  as H by reflexivity.
split; [exact H|].
exact (sample_bar_rejects_other_bar_types one_day_world 0%nat _ "time" Auto
         (-2) (1 / 50) H).
Defined.

(** ** The automatic threshold of tick bars *)

Section auto_ticks.

Lemma rint_small x : - (1 # 2) <= x -> x <= 1 # 2 -> rint x = 0%Z.
Proof.
intros H1 H2. destruct (floor_bounds x) as [F1 F2]. unfold rint.
assert (Qfloor x = 0 \/ Qfloor x = -1)%Z as [E|E].
{ assert (-2 < Qfloor x)%Z.
  { rewrite Zlt_Qlt. change (inject_Z (-2)) with (-2). lra. }
  assert (Qfloor x < 1)%Z.
  { rewrite Zlt_Qlt. change (inject_Z 1) with 1. lra. }
  lia. }
- rewrite E in *. change (inject_Z 0) with 0 in *.
  destruct (Qcompare_spec (x - 0) (1 # 2)); [done|done|lra].
- rewrite E in *. change (inject_Z (-1)) with (-1) in *.
  destruct (Qcompare_spec (x - -1) (1 # 2)); [done|lra|done].
Qed.

Lemma closes_threshold_proper t t' l : forall b,
  t == t' -> closes (Some t) b l = closes (Some t') b l.
Proof.
induction l as [|c l IH]; intros b E; simpl; [done|].
assert (Qle_bool t (c - b) = Qle_bool t' (c - b)) as ->.
{ apply eq_true_iff_eq. rewrite !Qle_bool_iff, E. tauto. }
destruct (Qle_bool t' (c - b)); f_equal; by apply IH.
Qed.

Lemma assign_groups_threshold_proper t t' cum :
  t == t' -> assign_groups (Some t) cum = assign_groups (Some t') cum.
Proof.
intros E. rewrite !assign_groups_labels.
by rewrite (closes_threshold_proper t t' cum 0 E).
Qed.

(** Rounded to units, tens, hundreds, ..., a value is an integer. *)
Lemma np_round_integer x r :
  (r <= 0)%Z -> exists T : Z, np_round x r == inject_Z T.
Proof.
intros Hr. unfold np_round. destruct (Z.leb_spec 0 r) as [H0|H0].
- assert (r = 0%Z) as -> by lia. exists (rint (x * pow10 0)).
  change (pow10 0) with 1. unfold Qdiv. change (/ 1) with 1. ring.
- exists (rint (x / pow10 (- r)) * 10 ^ (- r))%Z.
  unfold pow10. by rewrite inject_Z_mult.
Qed.

(** The threshold a tick sampler resolves in automatic mode. *)
Lemma auto_tick_threshold ts r a :
  ts <> [] ->
  resolved_threshold Auto "tick" ts r a
  = Some (np_round (inject_Z (Z.of_nat (length ts))
                    / inject_Z (business_days_spanned (date_time <$> ts))
                    * a) r).
Proof.
intros Hne.
destruct (mean_resample (date_time <$> ts) (measure_column "tick" ts))
  as (m & Hm & _ & Em); [by destruct ts|].
specialize (Em ltac:(by rewrite length_fmap, measure_column_length)).
unfold resolved_threshold, pre_rounding_threshold. rewrite Hm. simpl.
f_equal. apply np_round_proper. rewrite Em.
change (measure_column "tick" ts) with (replicate (length ts) 1).
by rewrite sum_ones.
Qed.

End auto_ticks.



(** X9: in automatic mode with a rounding to units or to a positive power
    of ten the threshold is an integer, and when it is positive every
    tick bar of the output has exactly that many ticks. *)
Theorem auto_tick_bars_are_full (ts : list Tick) (r : Z) (a : Q) :
  ts <> [] ->
  (r <= 0)%Z ->
  exists t T bars,
    stdout (run_sample_bar ts "tick" Auto r a).2 = [Some t]
    /\ t == inject_Z T
    /\ (run_sample_bar ts "tick" Auto r a).1 = inr bars
    /\ (0 < t -> forall b, b ∈ bars -> bar_ticks b == t).
Proof.
intros Hne Hr.
assert ("tick" ∈ POSSIBLE_BAR_TYPES) as Hbt by apply list_elem_of_here.
set (pre := inject_Z (Z.of_nat (length ts))
            / inject_Z (business_days_spanned (date_time <$> ts)) * a).
destruct (np_round_integer pre r Hr) as [T HT].
exists (np_round pre r), T.
rewrite run_sample_bar_stdout, run_sample_bar_bars by done.
rewrite (auto_tick_threshold ts r a Hne). fold pre.
eexists. split; [done|]. split; [done|]. split; [reflexivity|].
intros Hpos b Hb.
assert (0 < T)%Z as HTpos.
{ rewrite HT in Hpos. change 0 with (inject_Z 0) in Hpos.
  by rewrite <- Zlt_Qlt in Hpos. }
rewrite (assign_groups_threshold_proper _ _ _ HT) in Hb.
change (measure_column "tick" ts) with (replicate (length ts) 1) in Hb.
destruct (unit_blocks T HTpos 0 0%Z _ _
            (assign_groups_blocks (Some (inject_Z T))
               (cumsum (replicate (length ts) 1)))
            (length ts) (date_time <$> ts) (price <$> ts) (volume <$> ts)
            (zip_with Qmult (price <$> ts) (volume <$> ts)) eq_refl)
  as [Hall _].
rewrite Forall_forall in Hall. rewrite HT. by apply Hall.
Qed.

Lemma auto_tick_bars_are_full_witness :
  ticks5 0 1 2 3 4 <> []
  /\ (0 <= 0)%Z
  /\ exists t T bars,
       stdout (run_sample_bar (ticks5 0 1 2 3 4) "tick" Auto 0 2).2
       = [Some t]
       /\ t == inject_Z T
       /\ (run_sample_bar (ticks5 0 1 2 3 4) "tick" Auto 0 2).1 = inr bars
       /\ (0 < t -> forall b, b ∈ bars -> bar_ticks b == t).
Proof.
assert (ticks5 0 1 2 3 4 <> []) as H1 by discriminate.
assert (0 <= 0)%Z as H2 by lia.
split; [exact H1|]. split; [exact H2|].
exact (auto_tick_bars_are_full (ticks5 0 1 2 3 4) 0 2 H1 H2).
Defined.

(** ** The effects of the helpers on the frame they are given *)

Section helpers.

Lemma run_get_bar (get_bar : loc -> threshold -> Z -> Q -> M (list Bar))
    (tgt c : string) w l d tk dl vals thr r a :
  (forall df threshold rounding auto_ratio,
     get_bar df threshold rounding auto_ratio
     = (v ← column df tgt;
        _ ← assign_column df c (cumsum v);
        groups ← _assign_groups_threshold df threshold tgt c rounding auto_ratio;
        groupby_agg df groups)) ->
  c ∈ ["cum_ticks"; "cum_vol"; "cum_dol"] ->
  tgt ∈ ["ticks"; "volume"; "dollar"] ->
  heap w !! l = Some d ->
  ticks d = Some tk -> dollar d = Some dl ->
  get_col tgt d = Some vals -> length vals = nrows d ->
  returns_leaving (get_bar l thr r a w) w l (set_col c (cumsum vals) d).
Proof.
intros Hdef Hc Htgt Hd Htk Hdl Hvals Hlen.
assert (l < length (heap w))%nat as Hlt by by eapply lookup_lt_Some.
rewrite Hdef.
rewrite (run_bind _ _ _ _ _ (run_column _ _ _ _ _ Hd Hvals)).
rewrite (run_bind _ _ _ _ _ (run_assign_column _ _ _ _ _ Hd)).
set (d' := set_col c (cumsum vals) d).
set (w1 := {| heap := <[l := d']> (heap w); stdout := stdout w |}).
assert (heap w1 !! l = Some d') as Hd' by (by apply list_lookup_insert_eq).
assert (get_col c d' = Some (cumsum vals)) as Hcum
    by (subst d'; by list_cases Hc).
assert (get_col tgt d' = Some vals) as Hvals'.
{ subst d'. clear -Hc Htgt Hvals. by list_cases Hc; list_cases Htgt. }
assert (ticks d' = Some tk /\ dollar d' = Some dl) as [Htk' Hdl']
    by (subst d'; by list_cases Hc).
destruct (run_assign_groups l thr tgt c r a w1 d' (cumsum vals) vals)
  as [t' Hrun]; [done..| |done|].
{ rewrite cumsum_length, Hlen. unfold nrows. subst d'.
  by rewrite rows_set_col. }
rewrite (run_bind _ _ _ _ _ Hrun).
erewrite run_groupby_agg; [| |exact Htk'|exact Hdl'].
2: { cbn [heap]. by rewrite lookup_app_l by (subst w1; simpl; by rewrite length_insert). }
split; [eauto|]. cbn [snd heap]. split.
- by rewrite lookup_app_l by (subst w1; simpl; by rewrite length_insert).
- intros l' x Hne Hx.
  rewrite lookup_app_l
    by (subst w1; simpl; rewrite length_insert; by eapply lookup_lt_Some).
  subst w1. simpl. by rewrite list_lookup_insert_ne.
Qed.

End helpers.

(** X10: the three samplers [_get_tick_bar], [_get_volume_bar] and
    [_get_dollar_bar] change the frame they are given: when they return,
    that frame has the cumulative column they computed ([cum_ticks],
    [cum_vol], [cum_dol]) and is otherwise as it was, and no other frame
    of the caller has changed. *)
Theorem samplers_add_their_cumulative_column (w : World) (l : loc)
    (d : DataFrame) (tk dl : list Q) (thr : threshold) (r : Z) (a : Q) :
  heap w !! l = Some d ->
  ticks d = Some tk -> dollar d = Some dl ->
  length tk = nrows d -> length dl = nrows d ->
  returns_leaving (_get_tick_bar l thr r a w) w l
    (set_col "cum_ticks" (cumsum tk) d)
  /\ returns_leaving (_get_volume_bar l thr r a w) w l
       (set_col "cum_vol" (cumsum (volume <$> rows d)) d)
  /\ returns_leaving (_get_dollar_bar l thr r a w) w l
       (set_col "cum_dol" (cumsum dl) d).
Proof.
intros Hd Htk Hdl Hltk Hldl.
split; [|split].
- apply (run_get_bar _get_tick_bar "ticks" "cum_ticks" w l d tk dl tk);
    [done|apply list_elem_of_here|apply list_elem_of_here|done..].
- apply (run_get_bar _get_volume_bar "volume" "cum_vol" w l d tk dl
           (volume <$> rows d));
    [done|apply list_elem_of_further, list_elem_of_here
     |apply list_elem_of_further, list_elem_of_here|done|done|done|done|].
  by rewrite length_fmap.
- apply (run_get_bar _get_dollar_bar "dollar" "cum_dol" w l d tk dl dl);
    [done|apply list_elem_of_further, list_elem_of_further, list_elem_of_here
     |apply list_elem_of_further, list_elem_of_further, list_elem_of_here
     |done..].
Qed.

Lemma samplers_add_their_cumulative_column_witness :
  heap prepared_world !! 0%nat = Some prepared_frame
  /\ returns_leaving
       (_get_tick_bar 0%nat (Fixed 1) (-2) (1 / 50) prepared_world)
       prepared_world 0%nat (set_col "cum_ticks" (cumsum [1]) prepared_frame)
  /\ returns_leaving
       (_get_volume_bar 0%nat (Fixed 1) (-2) (1 / 50) prepared_world)
       prepared_world 0%nat
       (set_col "cum_vol" (cumsum (volume <$> rows prepared_frame))
          prepared_frame)
  /\ returns_leaving
       (_get_dollar_bar 0%nat (Fixed 1) (-2) (1 / 50) prepared_world)
       prepared_world 0%nat (set_col "cum_dol" (cumsum [1000]) prepared_frame).
Proof.
split; [reflexivity|].
apply (samplers_add_their_cumulative_column prepared_world 0%nat
         prepared_frame [1] [1000] (Fixed 1) (-2) (1 / 50)); reflexivity.
Defined.

(** X11: the group assigner works on a copy: it returns one label per row
    of the frame it is given and leaves that frame, its cumulative column
    included, and every other frame of the caller as they were; it prints
    the threshold once in automatic mode and nothing with a fixed
    threshold. *)
Theorem assigner_leaves_its_frame_unchanged (w : World) (df : loc)
    (d : DataFrame) (thr : threshold) (tgt c : string) (cum vals : list Q)
    (r : Z) (a : Q) :
  c ∈ ["cum_ticks"; "cum_vol"; "cum_dol"] ->
  heap w !! df = Some d ->
  get_col c d = Some cum ->
  length cum = nrows d ->
  get_col tgt d = Some vals ->
  exists gs w',
    _assign_groups_threshold df thr tgt c r a w = (inr gs, w')
    /\ length gs = nrows d
    /\ (forall l x, heap w !! l = Some x -> heap w' !! l = Some x)
    /\ length (heap w') = S (length (heap w))
    /\ exists out, stdout w' = stdout w ++ out
                   /\ length out = match thr with Auto => 1%nat | Fixed _ => 0%nat end.
Proof.
intros Hc Hd Hcum Hlen Hvals.
destruct (run_assign_groups df thr tgt c r a w d cum vals Hc Hd Hcum Hlen Hvals)
  as [t' Hrun].
eexists _, _. split; [exact Hrun|]. cbn [heap stdout].
split.
- rewrite (Blocks_length _ _ _ _ _ (assign_groups_blocks _ cum)). done.
- split.
  + intros l x Hl. rewrite lookup_app_l; [done|by eapply lookup_lt_Some].
  + split; [rewrite length_app; simpl; lia|].
    eexists. split; [reflexivity|]. by destruct thr.
Qed.

Lemma assigner_leaves_its_frame_unchanged_witness :
  "cum_vol" ∈ ["cum_ticks"; "cum_vol"; "cum_dol"]
  /\ exists gs w',
       _assign_groups_threshold 0%nat Auto "volume" "cum_vol" (-2) (1 / 50)
         {| heap := [set_col "cum_vol" [1000] prepared_frame]; stdout := [] |}
       = (inr gs, w')
       /\ length gs = nrows (set_col "cum_vol" [1000] prepared_frame)
       /\ (forall l x,
            heap {| heap := [set_col "cum_vol" [1000] prepared_frame];
                    stdout := [] |} !! l = Some x ->
            heap w' !! l = Some x)
       /\ length (heap w') = 2%nat
       /\ exists out, stdout w' = [] ++ out /\ length out = 1%nat.
Proof.
assert ("cum_vol" ∈ ["cum_ticks"; "cum_vol"; "cum_dol"]) as H
    by apply list_elem_of_further, list_elem_of_here.
split; [exact H|].
apply (assigner_leaves_its_frame_unchanged
         {| heap := [set_col "cum_vol" [1000] prepared_frame]; stdout := [] |}
         0%nat (set_col "cum_vol" [1000] prepared_frame) Auto "volume" "cum_vol"
         [1000] [1000] (-2) (1 / 50) H); reflexivity.
Defined.



(** ** Rows left out, empty results and failures *)

Section edges.

Lemma sum_constant (T : Q) l :
  Forall (fun x => x == T) l -> sum l == inject_Z (Z.of_nat (length l)) * T.
Proof.
induction 1 as [|x l Hx _ IH].
- simpl. change (inject_Z 0) with 0. change (sum []) with 0. ring.
- rewrite sum_cons, IH, Hx. cbn [length].
  rewrite Nat2Z.inj_succ, <- Z.add_1_l, inject_Z_plus.
  change (inject_Z 1) with 1. ring.
Qed.

Lemma np_round_zero r : np_round 0 r == 0.
Proof.
unfold np_round. destruct (0 <=? r)%Z.
- rewrite (rint_proper (0 * pow10 r) 0) by ring.
  rewrite rint_small by lra. unfold Qdiv. change (inject_Z 0) with 0. ring.
- rewrite (rint_proper (0 / pow10 (- r)) 0) by (unfold Qdiv; ring).
  rewrite rint_small by lra. change (inject_Z 0) with 0. ring.
Qed.

End edges.

(** X13: for tick bars with a fixed positive integer threshold [T] the
    bars hold all the rows of the table but the last [n mod T]: their
    tick counts add up to [n - n mod T]. *)
Theorem tick_bars_leave_out_the_remainder (ts : list Tick) (T : Z) (r : Z)
    (a : Q) :
  (0 < T)%Z ->
  exists bars,
    (run_sample_bar ts "tick" (Fixed (inject_Z T)) r a).1 = inr bars
    /\ sum (bar_ticks <$> bars)
       == inject_Z (Z.of_nat (length ts) - Z.of_nat (length ts) mod T).
Proof.
intros HT.
assert ("tick" ∈ POSSIBLE_BAR_TYPES) as Hbt by apply list_elem_of_here.
rewrite (run_sample_bar_bars _ _ _ _ _ Hbt). eexists. split; [done|].
change (measure_column "tick" ts) with (replicate (length ts) 1).
destruct (unit_blocks T HT 0 0%Z _ _
            (assign_groups_blocks (Some (inject_Z T))
               (cumsum (replicate (length ts) 1)))
            (length ts) (date_time <$> ts) (price <$> ts) (volume <$> ts)
            (zip_with Qmult (price <$> ts) (volume <$> ts)) eq_refl)
  as [Hall Hcount].
unfold bars_of, resolved_threshold.
rewrite (sum_constant (inject_Z T)) by (by rewrite Forall_fmap).
rewrite length_fmap, Hcount, <- inject_Z_mult.
pose proof (Z.div_mod (Z.of_nat (length ts)) T ltac:(lia)) as Hdiv.
replace (Z.of_nat (length ts) `div` T * T)%Z
  with (Z.of_nat (length ts) - Z.of_nat (length ts) `mod` T)%Z by lia.
reflexivity.
Qed.

Lemma tick_bars_leave_out_the_remainder_witness :
  (0 < 2)%Z
  /\ exists bars,
       (run_sample_bar (ticks5 0 1 2 3 4) "tick" (Fixed (inject_Z 2)) (-2)
          (1 / 50)).1 = inr bars
       /\ sum (bar_ticks <$> bars)
          == inject_Z (Z.of_nat (length (ticks5 0 1 2 3 4))
                       - Z.of_nat (length (ticks5 0 1 2 3 4)) mod 2).
Proof.
assert (0 < 2)%Z as H by lia.
split; [exact H|].
exact (tick_bars_leave_out_the_remainder (ticks5 0 1 2 3 4) 2 (-2) (1 / 50) H).
Defined.

(** X14: on a table with at least one row, non-negative values in the
    target column and a non-negative ratio, the automatic threshold is a
    number and is not negative. *)
Theorem auto_threshold_is_not_negative (w : World) (df : loc) (d : DataFrame)
    (tgt : string) (vals : list Q) (r : Z) (a : Q) :
  heap w !! df = Some d ->
  get_col tgt d = Some vals ->
  rows d <> [] ->
  Forall (fun x => 0 <= x) vals ->
  0 <= a ->
  exists t,
    _get_auto_threshold df tgt r a w = (inr (Some t), w) /\ 0 <= t.
Proof.
intros Hd Hvals Hne Hpos Ha.
destruct (mean_resample (date_time <$> rows d) vals)
  as (m & Hm & Hm0 & _); [by destruct (rows d)|].
specialize (Hm0 Hpos).
exists (np_round (m * a) r).
rewrite (run_get_auto_threshold _ _ _ _ _ _ _ Hd Hvals).
unfold pre_rounding_threshold. rewrite Hm. split; [done|].
rewrite <- (np_round_zero r). apply np_round_mono.
by apply Qmult_le_0_compat.
Qed.

Lemma auto_threshold_is_not_negative_witness :
  heap one_day_world !! 0%nat
  = Some (frame_of [ {| date_time := 0; price := 1; volume := 1000 |} ])
  /\ exists t,
       _get_auto_threshold 0%nat "volume" (-2) (1 / 50) one_day_world
       = (inr (Some t), one_day_world) /\ 0 <= t.
Proof.
split; [reflexivity|].
apply (auto_threshold_is_not_negative one_day_world 0%nat
         (frame_of [ {| date_time := 0; price := 1; volume := 1000 |} ])
         "volume" [1000] (-2) (1 / 50)).
- reflexivity.
- reflexivity.
- discriminate.
- repeat constructor; discriminate.
- discriminate.
Defined.

(** X15: in automatic mode the group assigner needs the target column:
    on a frame without it, it raises the key error that names the column,
    after it has copied the frame and before it prints anything. *)
Theorem auto_mode_needs_the_target_column (w : World) (df : loc)
    (d : DataFrame) (tgt c : string) (r : Z) (a : Q) :
  heap w !! df = Some d ->
  get_col tgt d = None ->
  _assign_groups_threshold df Auto tgt c r a w
  = (inl (KeyError tgt), {| heap := heap w ++ [d]; stdout := stdout w |}).
Proof.
intros Hd Hnone.
assert (df < length (heap w))%nat as Hlt by by eapply lookup_lt_Some.
unfold _assign_groups_threshold.
rewrite (run_bind _ _ _ _ _ (run_copy _ _ _ Hd)).
set (w1 := {| heap := heap w ++ [d]; stdout := stdout w |}).
assert (heap w1 !! df = Some d) as Hd1 by (simpl; by rewrite lookup_app_l).
assert (_get_auto_threshold df tgt r a w1 = (inl (KeyError tgt), w1)) as Hth.
{ unfold _get_auto_threshold.
  rewrite (run_bind _ _ _ _ _ (run_column _ "date_time" _ _ _ Hd1 eq_refl)).
  apply run_raise. unfold column.
  rewrite (run_bind _ _ _ _ _ (run_load _ _ _ Hd1)). by rewrite Hnone. }
apply run_raise. apply run_raise. exact Hth.
Qed.

Lemma auto_mode_needs_the_target_column_witness :
  heap one_day_world !! 0%nat
  = Some (frame_of [ {| date_time := 0; price := 1; volume := 1000 |} ])
  /\ _assign_groups_threshold 0%nat Auto "ticks" "cum_ticks" (-2) (1 / 50)
       one_day_world
     = (inl (KeyError "ticks"),
        {| heap := heap one_day_world
                   ++ [frame_of [ {| date_time := 0; price := 1;
                                     volume := 1000 |} ]];
           stdout := stdout one_day_world |}).
Proof.
split; [reflexivity|].
apply (auto_mode_needs_the_target_column one_day_world 0%nat
         (frame_of [ {| date_time := 0; price := 1; volume := 1000 |} ])
         "ticks" "cum_ticks" (-2) (1 / 50)); reflexivity.
Defined.



(** ** The labels of the runs and the unit of volume *)

Section labels_and_units.

Lemma closes_scale (c th : Q) vals :
  0 < c ->
  forall b b' acc acc',
    b' == c * b -> acc' == c * acc ->
    closes (Some (c * th)) b' (cumsum_from acc' (Qmult c <$> vals))
    = closes (Some th) b (cumsum_from acc vals).
Proof.
intros Hc. induction vals as [|x vals IH]; intros b b' acc acc' Hb Hacc;
  [done|].
cbn [fmap list_fmap cumsum_from closes].
assert (ge_th (acc' + c * x - b') (Some (c * th))
        = ge_th (acc + x - b) (Some th)) as ->.
{ simpl. apply eq_true_iff_eq. rewrite !Qle_bool_iff, Hb, Hacc. split.
  - intros H. apply (Qmult_le_l _ _ c); [done|].
    eapply Qle_trans; [exact H|]. apply Qle_lteq. right. ring.
  - intros H. apply (Qmult_le_l _ _ c Hc) in H.
    eapply Qle_trans; [exact H|]. apply Qle_lteq. right. ring. }
destruct (ge_th (acc + x - b) (Some th)); f_equal; apply IH;
  rewrite ?Hacc; try done; ring.
Qed.

Lemma bar_sizes_scale (ts : list Tick) (c th : Q) :
  0 < c ->
  bar_sizes "volume" (Some (c * th)) (scale_volume c <$> ts)
  = bar_sizes "volume" (Some th) ts.
Proof.
intros Hc. unfold bar_sizes, cumsum. f_equal.
change (measure_column "volume" (scale_volume c <$> ts))
  with (volume <$> (scale_volume c <$> ts)).
change (measure_column "volume" ts) with (volume <$> ts).
rewrite <- list_fmap_compose.
rewrite (list_fmap_ext (volume ∘ scale_volume c) (Qmult c ∘ volume) ts)
  by done.
rewrite (list_fmap_compose volume (Qmult c)).
apply closes_scale; [done|ring|ring].
Qed.

End labels_and_units.



